(** * ParticleSims: the per-frame pipeline of [src/particles/main.cpp]

    The simulation keeps three row-major [N x DIMENSION] buffers of doubles
    (positions, velocities, accelerations), rebuilds a hash grid of cells
    every frame and resolves pairwise collisions cell by cell.  This
    development embeds that pipeline and states the properties of the
    repository's specification over it.

    The program computes in C++ [float] and [double].  The embedding is
    written once, over an interface [Arith] of the arithmetic the source
    uses, and is given two readings:

    - [ieee]: IEEE-754 binary32 / binary64 with round-to-nearest-even, built
      on the Standard Library's [SpecFloat]; every definition evaluates, so
      concrete scenarios are run under machine semantics;
    - [exact]: real arithmetic in which the only way to leave the finite
      numbers is to divide by zero or to take the root of a negative number
      ([None] stands for NaN and the infinities and is absorbing).  Rounding
      and overflow are outside this reading; algebraic and geometric
      properties are proved in it. *)

From Stdlib Require Import ZArith QArith Qreals Reals Lra Lia Psatz.
From Stdlib Require Import Floats.SpecFloat.
From stdpp Require Import base option list sorting gmap.

(** ** Constants of [main.cpp] *)

Definition CELL_SIZE : Z := 10.
Definition DIMENSION : nat := 2.
Definition X : nat := 0.
Definition Y : nat := 1.

Definition INT_MIN : Z := - 2 ^ 31.
Definition INT_MAX : Z := 2 ^ 31 - 1.

(** Conversions between [int] and [unsigned int], two's complement. *)
Definition to_u32 (z : Z) : Z := z mod 2 ^ 32.
Definition to_i32 (z : Z) : Z := (z + 2 ^ 31) mod 2 ^ 32 - 2 ^ 31.

Definition in_int_range (z : Z) : bool := (INT_MIN <=? z)%Z && (z <=? INT_MAX)%Z.

(** ** The arithmetic of the source

    One carrier holds both [float] and [double] values; the operations say
    at which width they round.  [to_int] is [static_cast<int>] on a
    [float]: truncation toward zero, undefined (here [None]) when the
    truncated value does not fit an [int] or the operand is not finite. *)

Class Arith := {
  num : Type;
  fadd : num -> num -> num;
  fsub : num -> num -> num;
  fmul : num -> num -> num;
  fdiv : num -> num -> num;
  fsqrt : num -> num;
  fltb : num -> num -> bool;
  feqb : num -> num -> bool;
  dadd : num -> num -> num;
  dmul : num -> num -> num;
  to_float : num -> num;
  to_double : num -> num;
  of_int : Z -> num;
  flit : Q -> num;
  to_int : num -> option Z
}.

(** *** IEEE-754 reading *)

Module IEEE.

Definition prec32 : Z := 24.
Definition emax32 : Z := 128.
Definition prec64 : Z := 53.
Definition emax64 : Z := 1024.

Definition of_Z32 (z : Z) : spec_float := binary_normalize prec32 emax32 z 0 false.

(** A decimal literal with suffix [f]: the binary32 nearest to the
    rational it denotes.  Numerator and denominator of the literals that
    occur (0, 0.1, 0.01, 0.5, 1.5, ...) are themselves binary32 numbers, so
    one correctly rounded division gives that nearest value. *)
Definition lit32 (q : Q) : spec_float :=
  SFdiv prec32 emax32 (of_Z32 (Qnum q)) (of_Z32 (Zpos (Qden q))).

Definition round_to (prec emax : Z) (x : spec_float) : spec_float :=
  match x with
  | S754_finite s m e => binary_normalize prec emax (cond_Zopp s (Zpos m)) e s
  | _ => x
  end.

(** A [float] value stored in a buffer of doubles, as main.cpp:73-86 fills
    its buffers. *)
Definition dbl (q : Q) : spec_float := round_to prec64 emax64 (lit32 q).

Definition trunc (x : spec_float) : option Z :=
  match x with
  | S754_zero _ => Some 0%Z
  | S754_finite s m e =>
      let z := cond_Zopp s (Z.shiftl (Zpos m) e) in
      if in_int_range z then Some z else None
  | _ => None
  end.

Definition is_finite (x : spec_float) : bool :=
  match x with
  | S754_zero _ | S754_finite _ _ _ => true
  | _ => false
  end.

End IEEE.

Definition ieee : Arith := {|
  num := spec_float;
  fadd := SFadd IEEE.prec32 IEEE.emax32;
  fsub := SFsub IEEE.prec32 IEEE.emax32;
  fmul := SFmul IEEE.prec32 IEEE.emax32;
  fdiv := SFdiv IEEE.prec32 IEEE.emax32;
  fsqrt := SFsqrt IEEE.prec32 IEEE.emax32;
  fltb := SFltb;
  feqb := SFeqb;
  dadd := SFadd IEEE.prec64 IEEE.emax64;
  dmul := SFmul IEEE.prec64 IEEE.emax64;
  to_float := IEEE.round_to IEEE.prec32 IEEE.emax32;
  to_double := IEEE.round_to IEEE.prec64 IEEE.emax64;
  of_int := IEEE.of_Z32;
  flit := IEEE.lit32;
  to_int := IEEE.trunc
|}.

(** *** Exact reading *)

Module Exact.

Definition lift2 (f : R -> R -> R) (a b : option R) : option R :=
  match a, b with
  | Some x, Some y => Some (f x y)
  | _, _ => None
  end.

Definition div (a b : option R) : option R :=
  match a, b with
  | Some x, Some y => if Req_dec_T y 0 then None else Some (x / y)%R
  | _, _ => None
  end.

Definition root (a : option R) : option R :=
  match a with
  | Some x => if Rlt_dec x 0 then None else Some (sqrt x)
  | None => None
  end.

Definition ltb (a b : option R) : bool :=
  match a, b with
  | Some x, Some y => if Rlt_dec x y then true else false
  | _, _ => false
  end.

Definition eqb (a b : option R) : bool :=
  match a, b with
  | Some x, Some y => if Req_dec_T x y then true else false
  | _, _ => false
  end.

(** Truncation toward zero. *)
Definition Rtrunc (x : R) : Z := if Rle_dec 0 x then Zfloor x else Zceil x.

Definition trunc (a : option R) : option Z :=
  match a with
  | Some x => let z := Rtrunc x in if in_int_range z then Some z else None
  | None => None
  end.

(** A buffer of finite values, and the value it holds at an index (what
    [rd] answers outside the buffer is the literal [0]). *)
Definition fin (l : list R) : list (option R) := Some <$> l.
Definition get (l : list R) (k : nat) : R := default (Q2R 0) (l !! k).

(** Separation, squared distance and radius sum of two particles, read off
    a buffer of positions and a buffer of radii. *)
Definition dx (P : list R) (i j : nat) : R :=
  (get P (j * DIMENSION + X) - get P (i * DIMENSION + X))%R.
Definition dy (P : list R) (i j : nat) : R :=
  (get P (j * DIMENSION + Y) - get P (i * DIMENSION + Y))%R.
Definition d2 (P : list R) (i j : nat) : R :=
  (dx P i j * dx P i j + dy P i j * dy P i j)%R.
Definition rsum (Rd : list R) (i j : nat) : R := (get Rd i + get Rd j)%R.

(** The reals whose truncation toward zero is an [int]. *)
Definition fits_int (x : R) : Prop := (IZR INT_MIN - 1 < x < IZR INT_MAX + 1)%R.

(** Relative velocity along a direction [(nx, ny)]. *)
Definition along (V : list R) (i j : nat) (nx ny : R) : R :=
  ((get V (i * DIMENSION + X) - get V (j * DIMENSION + X)) * nx
   + (get V (i * DIMENSION + Y) - get V (j * DIMENSION + Y)) * ny)%R.

End Exact.

Definition exact : Arith := {|
  num := option R;
  fadd := Exact.lift2 Rplus;
  fsub := Exact.lift2 Rminus;
  fmul := Exact.lift2 Rmult;
  fdiv := Exact.div;
  fsqrt := Exact.root;
  fltb := Exact.ltb;
  feqb := Exact.eqb;
  dadd := Exact.lift2 Rplus;
  dmul := Exact.lift2 Rmult;
  to_float := fun x => x;
  to_double := fun x => x;
  of_int := fun z => Some (IZR z);
  flit := fun q => Some (Q2R q);
  to_int := Exact.trunc
|}.

(** ** The simulation, over any arithmetic *)

Section Simulation.

Context {A : Arith}.

(** [struct CellKey { int x, y; }] *)
Definition CellKey : Type := (Z * Z)%type.

(** [computeCellKey], main.cpp:39-41.  Integer [/] truncates toward zero. *)
Definition computeCellKey (x y : num) : option CellKey :=
  cx ← to_int x;
  cy ← to_int y;
  Some (Z.quot cx CELL_SIZE, Z.quot cy CELL_SIZE).

(** *** The state store *)

(** Modelled from the spec: the declarations of [matrix] (matrix.h) and of
    [Particle] (particle.h) are not among the sources.  By main.cpp:47-50
    and 88-94 and the specification's State Store, [positions],
    [velocities] and [accelerations] are flat row-major [N x DIMENSION]
    vectors of doubles, and [particles[i]->pos], [->vel] and [->acc] point
    at row [i] of the respective buffer, so an access through the particle
    is an access to the buffer.  [radius] holds [particles[i]->radius], a
    [float] that main.cpp:153 adds without a cast. *)
Record World := mkWorld {
  positions : list num;
  velocities : list num;
  accelerations : list num;
  radius : list num
}.

(** A store of [N] particles. *)
Definition wellFormed (N : nat) (w : World) : Prop :=
  length (positions w) = (N * DIMENSION)%nat
  /\ length (velocities w) = (N * DIMENSION)%nat
  /\ length (accelerations w) = (N * DIMENSION)%nat
  /\ length (radius w) = N.

(** Reading a buffer.  An index outside the buffer is undefined behaviour
    in the source; the indices the grid holds are below [N]. *)
Definition rd (buf : list num) (k : nat) : num := default (flit 0) (buf !! k).

Definition pos (w : World) (i c : nat) : num := rd (positions w) (i * DIMENSION + c).
Definition vel (w : World) (i c : nat) : num := rd (velocities w) (i * DIMENSION + c).
Definition rad (w : World) (i : nat) : num := rd (radius w) i.

(** [particles[i]->vel[c] = v] *)
Definition setVel (w : World) (i c : nat) (v : num) : World :=
  mkWorld (positions w) (<[i * DIMENSION + c := v]> (velocities w))
          (accelerations w) (radius w).

(** The resolver's state: the store, and a ghost log that records each pair
    for which the branch [if (dist2 < radiusSum * radiusSum)] is entered. *)
Record Sim := mkSim {
  world : World;
  hits : list (nat * nat)
}.

(** *** The integrator, main.cpp:104-109 *)

(** Modelled from the spec: [cblas_daxpy(n, alpha, x, 1, y, 1)] belongs to
    the BLAS library, which is not part of the sources; it is the state
    store's bulk operation "add to buffer A the elementwise product of
    scalar [dt] and buffer B", [y[k] += alpha * x[k]] for [k < n], in
    double precision. *)
Definition cblas_daxpy (n : nat) (alpha : num) (x y : list num) : list num :=
  imap (fun k yk =>
          if (k <? n)%nat then
            match x !! k with
            | Some xk => dadd (dmul alpha xk) yk
            | None => yk
            end
          else yk) y.

Definition integrate (dt : num) (w : World) : World :=
  let n := length (positions w) in
  let positions' := cblas_daxpy n (to_double dt) (velocities w) (positions w) in
  let velocities' := cblas_daxpy n (to_double dt) (accelerations w) (velocities w) in
  mkWorld positions' velocities' (accelerations w) (radius w).

(** *** The grid, main.cpp:118-129 *)

(** [grid[key].push_back(i)] *)
Definition gridInsert (grid : gmap CellKey (list nat)) (key : CellKey) (i : nat)
  : gmap CellKey (list nat) :=
  <[key := default [] (grid !! key) ++ [i]]> grid.

Definition keyOf (w : World) (i : nat) : option CellKey :=
  computeCellKey (to_float (pos w i X)) (to_float (pos w i Y)).

Definition buildGrid (N : nat) (w : World) : option (gmap CellKey (list nat)) :=
  foldl (fun og i => grid ← og; key ← keyOf w i; Some (gridInsert grid key i))
        (Some ∅) (seq 0 N).

(** [for (const auto &cellPair : grid) CellKeys.push_back(cellPair.first)];
    the order is the map's iteration order. *)
Definition cellKeys (grid : gmap CellKey (list nat)) : list CellKey :=
  (map_to_list grid).*1.

(** *** Pair resolution, main.cpp:146-178 and 194-225 (the same text)

    [ENTROPY] is the macro of defs.h ([0.01f]); it is an argument here, so
    that the elastic case [ENTROPY = 0] can be stated. *)

Definition separation (w : World) (i j : nat) : num * num :=
  let x1 := to_float (pos w i X) in
  let y1 := to_float (pos w i Y) in
  let x2 := to_float (pos w j X) in
  let y2 := to_float (pos w j Y) in
  (fsub x2 x1, fsub y2 y1).

Definition dist2 (w : World) (i j : nat) : num :=
  let '(dx, dy) := separation w i j in
  fadd (fmul dx dx) (fmul dy dy).

Definition radiusSum (w : World) (i j : nat) : num := fadd (rad w i) (rad w j).

(** The test [dist2 < radiusSum * radiusSum]. *)
Definition overlap (w : World) (i j : nat) : bool :=
  fltb (dist2 w i j) (fmul (radiusSum w i j) (radiusSum w i j)).

(** The divisor and the separation vector after the guard
    [if (distance == 0.f) { distance = 0.1f; dx = radiusSum; dy = 0.f; }]. *)
Definition guarded (w : World) (i j : nat) : num * num * num :=
  let '(dx, dy) := separation w i j in
  let distance := fsqrt (dist2 w i j) in
  if feqb distance (flit 0) then (flit 0.1, radiusSum w i j, flit 0)
  else (distance, dx, dy).

(** The contact normal [(nx, ny)]. *)
Definition normal (w : World) (i j : nat) : num * num :=
  let '(distance, dx, dy) := guarded w i j in
  (fdiv dx distance, fdiv dy distance).

(** [relVel = (v1x - v2x) * nx + (v1y - v2y) * ny] *)
Definition relVel (w : World) (i j : nat) (n : num * num) : num :=
  let v1x := to_float (vel w i X) in
  let v1y := to_float (vel w i Y) in
  let v2x := to_float (vel w j X) in
  let v2y := to_float (vel w j Y) in
  fadd (fmul (fsub v1x v2x) (fst n)) (fmul (fsub v1y v2y) (snd n)).

(** The quantity [impulse * n * (1 - ENTROPY)] along one axis. *)
Definition kick (ENTROPY impulse nc : num) : num :=
  fmul (fmul impulse nc) (fsub (of_int 1) ENTROPY).

Definition applyImpulse (ENTROPY : num) (w : World) (i j : nat) : World :=
  let n := normal w i j in
  let v1x := to_float (vel w i X) in
  let v1y := to_float (vel w i Y) in
  let v2x := to_float (vel w j X) in
  let v2y := to_float (vel w j Y) in
  let impulse := relVel w i j n in
  let w1 := setVel w i X (to_double (fsub v1x (kick ENTROPY impulse (fst n)))) in
  let w2 := setVel w1 i Y (to_double (fsub v1y (kick ENTROPY impulse (snd n)))) in
  let w3 := setVel w2 j X (to_double (fadd v2x (kick ENTROPY impulse (fst n)))) in
  setVel w3 j Y (to_double (fadd v2y (kick ENTROPY impulse (snd n)))).

Definition collide (ENTROPY : num) (i j : nat) (s : Sim) : Sim :=
  if overlap (world s) i j
  then mkSim (applyImpulse ENTROPY (world s) i j) (hits s ++ [(i, j)])
  else s.

(** *** [processCells], main.cpp:135-234 *)

(** [for a ... for b = a + 1 ...] over one bucket. *)
Fixpoint intraCell (ENTROPY : num) (cellParticles : list nat) (s : Sim) : Sim :=
  match cellParticles with
  | [] => s
  | i :: rest =>
      intraCell ENTROPY rest (foldl (fun s j => collide ENTROPY i j s) s rest)
  end.

(** [for (int i : cellParticles) for (int j : neighborParticles) if (i < j)] *)
Definition crossCell (ENTROPY : num) (cellParticles neighborParticles : list nat)
    (s : Sim) : Sim :=
  foldl (fun s i =>
           foldl (fun s j => if (i <? j)%nat then collide ENTROPY i j s else s)
                 s neighborParticles)
        s cellParticles.

(** [for dx in -1..1, for dy in -1..1], skipping [(0, 0)] and the keys the
    grid does not hold. *)
Definition interCell (ENTROPY : num) (grid : gmap CellKey (list nat)) (key : CellKey)
    (cellParticles : list nat) (s : Sim) : Sim :=
  foldl (fun s dx =>
    foldl (fun s dy =>
      if (dx =? 0)%Z && (dy =? 0)%Z then s
      else
        let neighborKey : CellKey := (key.1 + dx, key.2 + dy)%Z in
        match grid !! neighborKey with
        | Some neighborParticles => crossCell ENTROPY cellParticles neighborParticles s
        | None => s
        end)
      s [-1; 0; 1]%Z)
    s [-1; 0; 1]%Z.

Definition processCell (ENTROPY : num) (grid : gmap CellKey (list nat)) (key : CellKey)
    (s : Sim) : Sim :=
  let cellParticles := default [] (grid !! key) in
  interCell ENTROPY grid key cellParticles (intraCell ENTROPY cellParticles s).

(** [for (int idx = start; idx < end; ++idx)] *)
Definition processCells (ENTROPY : num) (grid : gmap CellKey (list nat))
    (CellKeys : list CellKey) (start end_ : Z) (s : Sim) : Sim :=
  foldl (fun s idx =>
           match CellKeys !! Z.to_nat idx with
           | Some key => processCell ENTROPY grid key s
           | None => s
           end)
        s (seqZ start (end_ - start)).

(** *** Splitting the cells over the threads, main.cpp:130-133 and 236-242

    [totalCells], [cellsPerThread], [extraCells], [currentIndex], [start],
    [count] and [end] are [int]; [numThreads] and [t] are [unsigned int], so
    [/], [%] and [<] are evaluated on [unsigned int]. *)
Definition cellsPerThread (totalCells numThreads : Z) : Z :=
  to_i32 (to_u32 totalCells / numThreads).

Definition extraCells (totalCells numThreads : Z) : Z :=
  to_i32 (to_u32 totalCells mod numThreads).

Fixpoint assign (perThread extra : Z) (todo : nat) (t currentIndex : Z)
  : list (Z * Z) :=
  match todo with
  | O => []
  | S todo' =>
      let start := currentIndex in
      let count := to_i32 (perThread + (if (t <? to_u32 extra)%Z then 1 else 0)) in
      let end_ := to_i32 (start + count) in
      (start, end_) :: assign perThread extra todo' (to_u32 (t + 1)) end_
  end.

Definition threadRanges (totalCells numThreads : Z) : list (Z * Z) :=
  assign (cellsPerThread totalCells numThreads) (extraCells totalCells numThreads)
         (Z.to_nat numThreads) 0 0.

(** The threads, run one after the other in the order they are spawned. *)
Definition runThreads (ENTROPY : num) (grid : gmap CellKey (list nat))
    (CellKeys : list CellKey) (numThreads : Z) (s : Sim) : Sim :=
  let totalCells := to_i32 (Z.of_nat (length CellKeys)) in
  foldl (fun s '(start, end_) => processCells ENTROPY grid CellKeys start end_ s)
        s (threadRanges totalCells numThreads).

(** Grid rebuild and collision resolution of one frame. *)
Definition resolve (ENTROPY : num) (N : nat) (numThreads : Z) (w : World)
  : option Sim :=
  grid ← buildGrid N w;
  Some (runThreads ENTROPY grid (cellKeys grid) numThreads (mkSim w [])).

End Simulation.

(** ** The resolver as a sequence of pair tests

    The loops of [processCells] visit pairs of particle indices in a fixed
    order and hand each one to the same test-and-resolve text.  The
    definitions below list the pairs in the order of the visit; that the
    loops do exactly this is proved further down ([runThreads_tests]). *)

Section Visits.

Context {A : Arith}.

(** What the resolver does not write: positions, accelerations, radii. *)
Definition frame (w : World) : list num * list num * list num :=
  (positions w, accelerations w, radius w).

Definition tests (ENTROPY : num) (pairs : list (nat * nat)) (s : Sim) : Sim :=
  foldl (fun s p => collide ENTROPY p.1 p.2 s) s pairs.

Fixpoint intraPairs (cellParticles : list nat) : list (nat * nat) :=
  match cellParticles with
  | [] => []
  | i :: rest => (pair i <$> rest) ++ intraPairs rest
  end.

Definition crossPairs (cellParticles neighborParticles : list nat) : list (nat * nat) :=
  i ← cellParticles; j ← neighborParticles;
  if (i <? j)%nat then [(i, j)] else [].

Definition interPairs (grid : gmap CellKey (list nat)) (key : CellKey)
    (cellParticles : list nat) : list (nat * nat) :=
  dx ← [-1; 0; 1]%Z; dy ← [-1; 0; 1]%Z;
  if (dx =? 0)%Z && (dy =? 0)%Z then []
  else match grid !! ((key.1 + dx, key.2 + dy)%Z : CellKey) with
       | Some neighborParticles => crossPairs cellParticles neighborParticles
       | None => []
       end.

Definition cellPairs (grid : gmap CellKey (list nat)) (key : CellKey) : list (nat * nat) :=
  let cellParticles := default [] (grid !! key) in
  intraPairs cellParticles ++ interPairs grid key cellParticles.

Definition rangePairs (grid : gmap CellKey (list nat)) (CellKeys : list CellKey)
    (start end_ : Z) : list (nat * nat) :=
  idx ← seqZ start (end_ - start);
  match CellKeys !! Z.to_nat idx with
  | Some key => cellPairs grid key
  | None => []
  end.

Definition scanPairs (grid : gmap CellKey (list nat)) (CellKeys : list CellKey)
  : list (nat * nat) :=
  key ← CellKeys; cellPairs grid key.

(** The particles of cell [k], in increasing order: what the bucket of [k]
    holds once the first [n] particles are inserted. *)
Definition bucket (w : World) (n : nat) (k : CellKey) : list nat :=
  filter (fun i => keyOf w i = Some k) (seq 0 n).

(** Two cells of the 3 x 3 neighbourhood: equal, or one step apart on
    each axis. *)
Definition adjacent (k1 k2 : CellKey) : Prop :=
  (Z.abs (k2.1 - k1.1) <= 1 /\ Z.abs (k2.2 - k1.2) <= 1)%Z.

End Visits.

(** ** Worlds of the two readings *)

(** A world of binary64 buffers holding the given decimal values, radii in
    binary32. *)
Definition ieeeWorld (P V Ac Rd : list Q) : @World ieee :=
  @mkWorld ieee (IEEE.dbl <$> P) (IEEE.dbl <$> V) (IEEE.dbl <$> Ac) (IEEE.lit32 <$> Rd).

(** A world all of whose entries are finite reals. *)
Definition exactWorld (P V Ac Rd : list R) : @World exact :=
  @mkWorld exact (Exact.fin P) (Exact.fin V) (Exact.fin Ac) (Exact.fin Rd).

(** ** What the specification says, in its own words *)

Module Spec.

(** "CellKey: pair of integers [(cx, cy) = (floor(x / cellSize), floor(y / cellSize))]" *)
Definition cellKey (x y : R) : CellKey :=
  (Zfloor (x / IZR CELL_SIZE), Zfloor (y / IZR CELL_SIZE)).

(** Closed form of the first cell of thread [t] when [M] cells are split
    into [T] near-equal contiguous chunks, the first [M mod T] of them one
    cell larger. *)
Definition chunkStart (M T t : Z) : Z := (t * (M / T) + Z.min t (M mod T))%Z.

(** "the set found by brute-force all-pairs distance check": every pair
    [i < j < N] whose centre distance is strictly less than the sum of the
    two radii. *)
Definition allPairs (N : nat) : list (nat * nat) :=
  i ← seq 0 N; j ← seq (S i) (N - S i); [(i, j)].

Definition close (P Rd : list R) (i j : nat) : Prop :=
  (sqrt (Exact.d2 P i j) < Exact.rsum Rd i j)%R.

Definition bruteForce (N : nat) (P Rd : list R) : list (nat * nat) :=
  List.filter
    (fun p => if Rlt_dec (sqrt (Exact.d2 P p.1 p.2)) (Exact.rsum Rd p.1 p.2)
              then true else false)
    (allPairs N).

(** "a negative or NaN [dt] is treated as a fatal configuration error"
    that aborts the current frame: the integrator the specification
    describes.  [dt == dt] fails exactly for a NaN. *)
Definition integrateChecked {A : Arith} (dt : num) (w : World) : option World :=
  if fltb dt (flit 0) || negb (feqb dt dt) then None else Some (integrate dt w).

End Spec.

(** ** The start of [main], main.cpp:44-95 *)

Definition WINDOW_X : Z := 1200.
Definition WINDOW_Y : Z := 800.
Definition GRAVITY : Q := 1000.
Definition RADIUS : Q := 0.5.

(** [numThreads], main.cpp:57-60, from what
    [std::thread::hardware_concurrency()] reports. *)
Definition numThreads (hardware_concurrency : Z) : Z :=
  if (hardware_concurrency =? 0)%Z then 4 else hardware_concurrency.

Section Startup.

Context {A : Arith}.

(** Modelled from the spec: [positions(i, c) = v] and
    [accelerations(i, c) = v] go through [matrix::operator()] (matrix.h,
    not among the sources); by main.cpp:89-92 element [(i, c)] is
    [data[i * DIMENSION + c]]. *)
Definition setPos (w : World) (i c : nat) (v : num) : World :=
  mkWorld (<[i * DIMENSION + c := v]> (positions w)) (velocities w)
          (accelerations w) (radius w).

Definition setAcc (w : World) (i c : nat) (v : num) : World :=
  mkWorld (positions w) (velocities w)
          (<[i * DIMENSION + c := v]> (accelerations w)) (radius w).

(** Modelled from the spec: the constructor
    [Particle(pos_ptr, vel_ptr, acc_ptr, radius, color)] (particle.h, not
    among the sources) keeps the three row pointers and stores its fourth
    argument as [particles[i]->radius]. *)
Definition setRadius (w : World) (i : nat) (v : num) : World :=
  mkWorld (positions w) (velocities w) (accelerations w) (<[i := v]> (radius w)).

(** One turn of the loop main.cpp:71-95.  [rand k] is what the [k]-th call
    of [std::rand()] returns and [calls] counts the calls made so far; [%]
    on [int] is the remainder of the division that truncates toward zero. *)
Definition initParticle (rand : nat -> Z) (st : World * nat) (i : nat) : World * nat :=
  let '(w, calls) := st in
  let x := of_int (Z.rem (rand calls) WINDOW_X) in
  let y := of_int (Z.rem (rand (calls + 1)) WINDOW_Y) in
  let w := setPos w i X (to_double x) in
  let w := setPos w i Y (to_double y) in
  let vx := of_int (Z.rem (rand (calls + 2)) 2 - 1) in
  let vy := of_int (Z.rem (rand (calls + 3)) 2 - 1) in
  let w := setVel w i X (to_double vx) in
  let w := setVel w i Y (to_double vy) in
  let w := setAcc w i X (to_double (flit 0)) in
  let w := setAcc w i Y (to_double (flit GRAVITY)) in
  let w := setRadius w i (flit RADIUS) in
  (w, calls + 4).

(** [for (int i = 0; i < NUM_PARTICLES; ++i)], from the buffers as they
    are allocated. *)
Definition initParticles (rand : nat -> Z) (N : nat) (w : World) : World * nat :=
  foldl (initParticle rand) (w, 0) (seq 0 N).

End Startup.

(** ** Quantities the properties of the resolver are stated with *)

(** The stretch of the axis that [computeCellKey] maps to cell [c]: ten
    units wide, except cell [0], which reaches from [-10] to [10]. *)
Definition cellSpan (c : Z) (x : R) : Prop :=
  ((0 < c)%Z /\ IZR (CELL_SIZE * c) <= x < IZR (CELL_SIZE * c + CELL_SIZE))%R
  \/ (c = 0%Z /\ - IZR CELL_SIZE < x < IZR CELL_SIZE)%R
  \/ ((c < 0)%Z /\ IZR (CELL_SIZE * c - CELL_SIZE) < x <= IZR (CELL_SIZE * c))%R.

(** The sum over the [N] particles of component [c] of a flat buffer: the
    total momentum along axis [c] when the buffer holds the velocities
    (the particles have no mass in the source, so all masses are alike). *)
Definition momentum (V : list R) (N c : nat) : R :=
  foldr Rplus 0%R ((fun i => Exact.get V (i * DIMENSION + c)) <$> seq 0 N).

(** Twice the kinetic energy of the pair [(i, j)]. *)
Definition pairEnergy (V : list R) (i j : nat) : R :=
  (Exact.get V (i * DIMENSION + X) * Exact.get V (i * DIMENSION + X)
   + Exact.get V (i * DIMENSION + Y) * Exact.get V (i * DIMENSION + Y)
   + Exact.get V (j * DIMENSION + X) * Exact.get V (j * DIMENSION + X)
   + Exact.get V (j * DIMENSION + Y) * Exact.get V (j * DIMENSION + Y))%R.

(** Twice the kinetic energy of the [N] particles. *)
Definition energy (V : list R) (N : nat) : R :=
  foldr Rplus 0%R
    ((fun i => Exact.get V (i * DIMENSION + X) * Exact.get V (i * DIMENSION + X)
               + Exact.get V (i * DIMENSION + Y) * Exact.get V (i * DIMENSION + Y))%R
       <$> seq 0 N).

(** ** Machine integers *)

Lemma to_i32_id z : (INT_MIN <= z <= INT_MAX)%Z -> to_i32 z = z.
Proof.
  unfold to_i32, INT_MIN, INT_MAX. intros H.
  rewrite Z.mod_small; lia.
Qed.

Lemma to_u32_id z : (0 <= z < 2 ^ 32)%Z -> to_u32 z = z.
Proof. unfold to_u32. intros H. apply Z.mod_small. lia. Qed.

Lemma in_int_range_true z : (INT_MIN <= z <= INT_MAX)%Z -> in_int_range z = true.
Proof. unfold in_int_range. intros H. apply andb_true_intro. lia. Qed.

Lemma in_int_range_inv z : in_int_range z = true -> (INT_MIN <= z <= INT_MAX)%Z.
Proof. unfold in_int_range. intros H%andb_prop. lia. Qed.

(** ** Cell keys *)

Section CellKeys.

#[local] Existing Instance exact.

Lemma Rtrunc_nonneg x : (0 <= x)%R -> Exact.Rtrunc x = Zfloor x.
Proof. unfold Exact.Rtrunc. intros H. destruct (Rle_dec 0 x); [done | contradiction]. Qed.

Lemma Rtrunc_neg x : (x < 0)%R -> Exact.Rtrunc x = Zceil x.
Proof. unfold Exact.Rtrunc. intros H. destruct (Rle_dec 0 x); [lra | done]. Qed.

Lemma Zfloor_div_nonneg x (d : Z) :
  (0 < d)%Z -> Zfloor (x / IZR d) = (Zfloor x / d)%Z.
Proof.
  intros Hd. apply Zfloor_eq.
  pose proof (Zfloor_bound x) as [Hlo Hhi].
  pose proof (Z.div_mod (Zfloor x) d ltac:(lia)) as Hdm.
  pose proof (Z.mod_pos_bound (Zfloor x) d Hd) as Hr.
  set (n := Zfloor x) in *. set (q := (n / d)%Z) in *. set (r := (n mod d)%Z) in *.
  assert (Hn : IZR n = (IZR d * IZR q + IZR r)%R).
  { rewrite <- mult_IZR, <- plus_IZR. by f_equal. }
  assert (Hd' : (0 < IZR d)%R) by (apply IZR_lt; lia).
  assert (Hr0 : (0 <= IZR r)%R) by (apply IZR_le; lia).
  assert (Hr1 : (IZR r + 1 <= IZR d)%R).
  { rewrite <- plus_IZR. apply IZR_le. lia. }
  split.
  - apply Rmult_le_reg_r with (IZR d); [done |].
    unfold Rdiv. rewrite Rmult_assoc, Rinv_l by lra. nra.
  - apply Rmult_lt_reg_r with (IZR d); [done |].
    unfold Rdiv. rewrite Rmult_assoc, Rinv_l by lra. nra.
Qed.

Lemma Zfloor_int_range x :
  (0 <= x < IZR (2 ^ 31))%R -> (INT_MIN <= Zfloor x <= INT_MAX)%Z.
Proof.
  intros [Hlo Hhi]. pose proof (Zfloor_bound x) as [Hf1 Hf2].
  assert (0 <= Zfloor x)%Z by (apply Zfloor_lub; simpl; lra).
  assert (Zfloor x < 2 ^ 31)%Z by (apply lt_IZR; lra).
  unfold INT_MIN, INT_MAX. lia.
Qed.

(** C4, as stated, fails: at [(-5, -5)] the code answers cell [(0, 0)],
    while [(floor(-5 / 10), floor(-5 / 10))] is [(-1, -1)]. *)
Lemma computeCellKey_negative_not_floor :
  computeCellKey (Some (-5)%R) (Some (-5)%R) = Some (0, 0)%Z
  /\ computeCellKey (Some (-5)%R) (Some (-5)%R) <> Some (Spec.cellKey (-5) (-5)).
Proof.
  assert (Ht : Exact.Rtrunc (-5) = (-5)%Z).
  { rewrite Rtrunc_neg by lra. unfold Zceil.
    replace (- -5)%R with (IZR 5) by lra. by rewrite ZfloorZ. }
  assert (Hk : computeCellKey (Some (-5)%R) (Some (-5)%R) = Some (0, 0)%Z).
  { unfold computeCellKey. simpl. by rewrite Ht. }
  split; [done |]. rewrite Hk. unfold Spec.cellKey.
  assert (Zfloor (-5 / IZR CELL_SIZE) = (-1)%Z) as ->; [| done].
  apply Zfloor_eq. unfold CELL_SIZE. simpl. lra.
Qed.

(** The same input under binary32: the key is [(0, 0)] there too. *)
Example computeCellKey_negative_ieee :
  @computeCellKey ieee (@flit ieee (-5)) (@flit ieee (-5)) = Some (0, 0)%Z.
Proof. vm_compute. reflexivity. Qed.

(** C4 (amended): for every position with non-negative coordinates that
    fit an [int], the cell key is [(floor(x / cellSize), floor(y / cellSize))]. *)
Theorem computeCellKey_floor_nonneg (x y : R) :
  (0 <= x < IZR (2 ^ 31))%R -> (0 <= y < IZR (2 ^ 31))%R ->
  computeCellKey (Some x) (Some y) = Some (Spec.cellKey x y).
Proof.
  intros Hx Hy. unfold computeCellKey, Spec.cellKey. simpl.
  rewrite !Rtrunc_nonneg by lra.
  rewrite !in_int_range_true by (by apply Zfloor_int_range). simpl.
  rewrite !Zfloor_div_nonneg by done.
  rewrite !Z.quot_div_nonneg; try done.
  all: apply Zfloor_lub; simpl; lra.
Qed.

Lemma computeCellKey_floor_nonneg_witness :
  ((0 <= 25 < IZR (2 ^ 31))%R /\ (0 <= 7 < IZR (2 ^ 31))%R)
  /\ computeCellKey (Some 25%R) (Some 7%R) = Some (Spec.cellKey 25 7).
Proof.
  assert (H25 : (0 <= 25 < IZR (2 ^ 31))%R) by (simpl; lra).
  assert (H7 : (0 <= 7 < IZR (2 ^ 31))%R) by (simpl; lra).
  split; [done |]. exact (computeCellKey_floor_nonneg 25 7 H25 H7).
Defined.

End CellKeys.

(** ** The split of the cells over the threads *)

Section Partition.

Local Open Scope Z_scope.

Variables M T : Z.
Hypothesis HM : 0 <= M <= INT_MAX.
Hypothesis HT : 1 <= T < 2 ^ 32.

Let q := M / T.
Let r := M mod T.

Lemma chunk_facts : 0 <= q /\ 0 <= r < T /\ M = T * q + r.
Proof using HM HT.
  subst q r. repeat split.
  - apply Z.div_pos; lia.
  - apply Z.mod_pos_bound; lia.
  - apply Z.mod_pos_bound; lia.
  - apply Z.div_mod; lia.
Qed.

Lemma cellsPerThread_eq : cellsPerThread M T = q.
Proof using HM HT.
  destruct chunk_facts as (Hq & Hr & HMeq).
  unfold cellsPerThread. unfold INT_MAX in HM. rewrite to_u32_id by lia.
  apply to_i32_id. unfold INT_MIN, INT_MAX. fold q. nia.
Qed.

Lemma extraCells_eq : extraCells M T = r.
Proof using HM HT.
  destruct chunk_facts as (Hq & Hr & HMeq).
  unfold extraCells. unfold INT_MAX in HM. rewrite to_u32_id by lia.
  apply to_i32_id. unfold INT_MIN, INT_MAX. fold r. nia.
Qed.

Lemma chunkStart_step t :
  0 <= t ->
  Spec.chunkStart M T (t + 1) - Spec.chunkStart M T t = q + (if t <? r then 1 else 0).
Proof using HM HT.
  intros Ht. unfold Spec.chunkStart. fold q r.
  destruct (Z.ltb_spec t r); lia.
Qed.

Lemma chunkStart_mono t t' :
  0 <= t <= t' -> Spec.chunkStart M T t <= Spec.chunkStart M T t'.
Proof using HM HT.
  destruct chunk_facts as (Hq & Hr & HMeq).
  intros Ht. unfold Spec.chunkStart. fold q r. nia.
Qed.

Lemma chunkStart_0 : Spec.chunkStart M T 0 = 0.
Proof using HM HT.
  destruct chunk_facts as (Hq & Hr & HMeq).
  unfold Spec.chunkStart. fold q r. lia.
Qed.

Lemma chunkStart_T : Spec.chunkStart M T T = M.
Proof using HM HT.
  destruct chunk_facts as (Hq & Hr & HMeq).
  unfold Spec.chunkStart. fold q r. lia.
Qed.

Lemma chunkStart_range t :
  0 <= t <= T -> 0 <= Spec.chunkStart M T t <= M.
Proof using HM HT.
  intros Ht.
  pose proof (chunkStart_mono 0 t ltac:(lia)) as H0.
  pose proof (chunkStart_mono t T ltac:(lia)) as H1.
  rewrite chunkStart_0 in H0. rewrite chunkStart_T in H1. lia.
Qed.

(** The loop of main.cpp:236-242 computes the closed form. *)
Lemma assign_chunks (n : nat) (t : Z) :
  0 <= t -> t + Z.of_nat n <= T ->
  assign q r n t (Spec.chunkStart M T t)
  = (fun k => (Spec.chunkStart M T k, Spec.chunkStart M T (k + 1))) <$> seqZ t (Z.of_nat n).
Proof using HM HT.
  destruct chunk_facts as (Hq & Hr & HMeq).
  revert t. induction n as [| n IH]; intros t Ht0 Ht; [done |].
  rewrite seqZ_cons by lia. cbn [assign fmap list_fmap].
  pose proof (chunkStart_step t Ht0) as Hstep.
  pose proof (chunkStart_range t ltac:(lia)) as Hr1.
  pose proof (chunkStart_range (t + 1) ltac:(lia)) as Hr2.
  unfold INT_MAX in HM.
  rewrite (to_u32_id r) by lia.
  rewrite (to_i32_id (q + _)) by (unfold INT_MIN, INT_MAX; lia).
  rewrite <- Hstep.
  replace (Spec.chunkStart M T t + (Spec.chunkStart M T (t + 1) - Spec.chunkStart M T t))
    with (Spec.chunkStart M T (t + 1)) by lia.
  rewrite (to_i32_id (Spec.chunkStart M T (t + 1))) by (unfold INT_MIN, INT_MAX; lia).
  rewrite to_u32_id by lia.
  f_equal. rewrite IH by lia.
  replace (Z.succ t) with (t + 1) by lia.
  by replace (Z.pred (Z.of_nat (S n))) with (Z.of_nat n) by lia.
Qed.

Lemma threadRanges_chunks :
  threadRanges M T
  = (fun k => (Spec.chunkStart M T k, Spec.chunkStart M T (k + 1))) <$> seqZ 0 T.
Proof using HM HT.
  unfold threadRanges. rewrite cellsPerThread_eq, extraCells_eq.
  pose proof (assign_chunks (Z.to_nat T) 0 ltac:(lia) ltac:(lia)) as H.
  rewrite chunkStart_0, Z2Nat.id in H by lia. exact H.
Qed.

Lemma threadRanges_lookup (t : nat) s e :
  threadRanges M T !! t = Some (s, e) ->
  Z.of_nat t < T /\ s = Spec.chunkStart M T (Z.of_nat t)
  /\ e = Spec.chunkStart M T (Z.of_nat t + 1).
Proof using HM HT.
  rewrite threadRanges_chunks, list_lookup_fmap.
  destruct (seqZ 0 T !! t) as [k |] eqn:Hk; [| done].
  apply lookup_seqZ in Hk as [-> Hlt]. simpl. intros [= <- <-]. done.
Qed.

Lemma chunk_of_index (n : nat) idx :
  Z.of_nat n <= T -> 0 <= idx < Spec.chunkStart M T (Z.of_nat n) ->
  exists t : nat, (t < n)%nat
    /\ Spec.chunkStart M T (Z.of_nat t) <= idx < Spec.chunkStart M T (Z.of_nat t + 1).
Proof using HM HT.
  induction n as [| n IH]; intros Hn Hidx.
  - change (Z.of_nat 0) with 0 in Hidx. rewrite chunkStart_0 in Hidx. lia.
  - destruct (Z.lt_ge_cases idx (Spec.chunkStart M T (Z.of_nat n))) as [Hlt | Hge].
    + destruct IH as (t & Ht & Hin); [lia | lia |]. exists t. split; [lia | done].
    + exists n. split; [lia |].
      replace (Z.of_nat n + 1) with (Z.of_nat (S n)) by lia. lia.
Qed.

End Partition.

(** C7: the thread ranges are contiguous chunks that start at cell 0 and
    end at cell [M]; range [t] has [M / T] cells, one more for the first
    [M mod T] threads; every cell index lies in exactly one range. *)
Theorem threadRanges_partition (M T : Z) :
  (0 <= M <= INT_MAX)%Z -> (1 <= T < 2 ^ 32)%Z ->
  let ranges := threadRanges M T in
  length ranges = Z.to_nat T
  /\ (forall t s e, ranges !! t = Some (s, e) ->
        (e - s = M / T + (if Z.of_nat t <? M mod T then 1 else 0))%Z)
  /\ (forall s e, ranges !! 0%nat = Some (s, e) -> s = 0%Z)
  /\ (forall t s e s' e', ranges !! t = Some (s, e) -> ranges !! S t = Some (s', e') -> s' = e)
  /\ (forall s e, ranges !! Nat.pred (Z.to_nat T) = Some (s, e) -> e = M)
  /\ (forall idx, (0 <= idx < M)%Z ->
        exists t s e, ranges !! t = Some (s, e) /\ (s <= idx < e)%Z
          /\ forall t' s' e', ranges !! t' = Some (s', e') -> (s' <= idx < e')%Z -> t' = t).
Proof.
  intros HM HT ranges.
  assert (Hlen : length ranges = Z.to_nat T).
  { subst ranges. rewrite threadRanges_chunks by done.
    by rewrite length_fmap, length_seqZ. }
  pose proof (threadRanges_lookup M T HM HT) as Hlook. fold ranges in Hlook.
  repeat split.
  - done.
  - intros t s e [Ht [-> ->]]%Hlook. apply chunkStart_step; lia.
  - intros s e [Ht [-> _]]%Hlook. by apply chunkStart_0.
  - intros t s e s' e' [Ht [_ ->]]%Hlook [Ht' [-> _]]%Hlook. f_equal. lia.
  - intros s e [Ht [_ ->]]%Hlook.
    replace (Z.of_nat (Nat.pred (Z.to_nat T)) + 1)%Z with T by lia.
    by apply chunkStart_T.
  - intros idx Hidx.
    destruct (chunk_of_index M T HM HT (Z.to_nat T) idx) as (t & Ht & Hin).
    { lia. } { rewrite Z2Nat.id by lia. rewrite chunkStart_T by done. lia. }
    destruct (lookup_lt_is_Some_2 ranges t) as [[s e] Hse]; [lia |].
    exists t, s, e. split; [done |].
    pose proof Hse as [_ [-> ->]]%Hlook. split; [done |].
    intros t' s' e' [Ht' [-> ->]]%Hlook Hin'.
    destruct (Nat.lt_trichotomy t' t) as [Hlt | [-> | Hgt]]; [| done |].
    + pose proof (chunkStart_mono M T HM HT (Z.of_nat t' + 1) (Z.of_nat t)). lia.
    + pose proof (chunkStart_mono M T HM HT (Z.of_nat t + 1) (Z.of_nat t')). lia.
Qed.

Lemma threadRanges_partition_witness :
  ((0 <= 10 <= INT_MAX)%Z /\ (1 <= 4 < 2 ^ 32)%Z)
  /\ threadRanges 10 4 = [(0, 3); (3, 6); (6, 8); (8, 10)]%Z
  /\ length (threadRanges 10 4) = Z.to_nat 4.
Proof.
  assert (H10 : (0 <= 10 <= INT_MAX)%Z) by (unfold INT_MAX; lia).
  assert (H4 : (1 <= 4 < 2 ^ 32)%Z) by lia.
  split; [done |]. split; [reflexivity |].
  exact (proj1 (threadRanges_partition 10 4 H10 H4)).
Defined.

(** ** The integrator *)

Section Integrator.

Context {A : Arith}.

Lemma cblas_daxpy_length n alpha (x y : list num) :
  length (cblas_daxpy n alpha x y) = length y.
Proof. unfold cblas_daxpy. apply length_imap. Qed.

Lemma cblas_daxpy_lookup n alpha (x y : list num) k xk yk :
  (k < n)%nat -> x !! k = Some xk -> y !! k = Some yk ->
  cblas_daxpy n alpha x y !! k = Some (dadd (dmul alpha xk) yk).
Proof.
  intros Hk Hx Hy. unfold cblas_daxpy. rewrite list_lookup_imap, Hy. simpl.
  rewrite Hx. by destruct (Nat.ltb_spec k n); [| lia].
Qed.

End Integrator.

(** C8: one call of the integrator moves every position by [dt] times the
    velocity the particle had before the call, and every velocity by [dt]
    times the acceleration; the new position does not see the new
    velocity. *)
Theorem integrate_position_then_velocity {A : Arith} (dt : num) (w : World)
    (k : nat) (p v a : num) :
  positions w !! k = Some p ->
  velocities w !! k = Some v ->
  accelerations w !! k = Some a ->
  positions (integrate dt w) !! k = Some (dadd (dmul (to_double dt) v) p)
  /\ velocities (integrate dt w) !! k = Some (dadd (dmul (to_double dt) a) v)
  /\ accelerations (integrate dt w) = accelerations w
  /\ radius (integrate dt w) = radius w.
Proof.
  intros Hp Hv Ha. pose proof (lookup_lt_Some _ _ _ Hp) as Hk.
  unfold integrate. simpl. repeat split.
  - by apply cblas_daxpy_lookup.
  - by apply cblas_daxpy_lookup.
Qed.

Lemma integrate_position_then_velocity_witness :
  let w := ieeeWorld [3; 4]%Q [2; 0]%Q [0; 1000]%Q [0.5]%Q in
  (positions w !! 0%nat = Some (IEEE.dbl 3)
   /\ velocities w !! 0%nat = Some (IEEE.dbl 2)
   /\ accelerations w !! 0%nat = Some (IEEE.dbl 0))
  /\ positions (@integrate ieee (IEEE.lit32 0.5) w) !! 0%nat = Some (IEEE.dbl 4)
  /\ velocities (@integrate ieee (IEEE.lit32 0.5) w) !! 0%nat = Some (IEEE.dbl 2).
Proof.
  intros w. split; [split; [| split]; vm_compute; reflexivity |].
  pose proof (@integrate_position_then_velocity ieee (IEEE.lit32 0.5) w 0
                (IEEE.dbl 3) (IEEE.dbl 2) (IEEE.dbl 0)
                eq_refl eq_refl eq_refl) as (Hp & Hv & _).
  split; [refine (eq_trans Hp _) | refine (eq_trans Hv _)]; vm_compute; reflexivity.
Defined.

(** C5, as stated, fails: with [dt = -1] the frame is not aborted and [dt]
    is not clamped to zero; the particle at [(3, 4)] with velocity [(2, 0)]
    is moved back to [(1, 4)]. *)
Lemma integrate_negative_dt_not_rejected :
  let w := ieeeWorld [3; 4]%Q [2; 0]%Q [0; 1000]%Q [0.5]%Q in
  @Spec.integrateChecked ieee (IEEE.lit32 (-1)) w = None
  /\ Some (@integrate ieee (IEEE.lit32 (-1)) w) <> @Spec.integrateChecked ieee (IEEE.lit32 (-1)) w
  /\ positions (@integrate ieee (IEEE.lit32 (-1)) w) = [IEEE.dbl 1; IEEE.dbl 4]
  /\ positions (@integrate ieee (IEEE.lit32 0) w) = [IEEE.dbl 3; IEEE.dbl 4].
Proof.
  intros w.
  assert (Hneg : @fltb ieee (IEEE.lit32 (-1)) (@flit ieee 0) = true)
    by (vm_compute; reflexivity).
  assert (Hnone : @Spec.integrateChecked ieee (IEEE.lit32 (-1)) w = None).
  { unfold Spec.integrateChecked. by rewrite Hneg. }
  split; [exact Hnone |]. split; [by rewrite Hnone |].
  split; vm_compute; reflexivity.
Qed.

(** C5 (amended): the integrator takes [dt] as it comes from the clock;
    nothing is clamped and no frame is aborted.  A negative [dt] moves each
    position by [dt] times the velocity (backwards) and each velocity by
    [dt] times the acceleration, like any other value; a [dt] that is not a
    number is written into every position and velocity.  The frame agrees
    with the checked integrator of the specification exactly when [dt] is a
    non-negative number. *)
Theorem integrate_unchecked (dt : option R) (P V Ac Rd : list R) (k : nat) (p v a : R) :
  P !! k = Some p -> V !! k = Some v -> Ac !! k = Some a ->
  let w := exactWorld P V Ac Rd in
  let w' := @integrate exact dt w in
  (@Spec.integrateChecked exact dt w = Some w' <-> exists d, dt = Some d /\ (0 <= d)%R)
  /\ match dt with
     | Some d =>
         positions w' !! k = Some (Some (d * v + p)%R)
         /\ velocities w' !! k = Some (Some (d * a + v)%R)
     | None =>
         positions w' !! k = Some None /\ velocities w' !! k = Some None
     end.
Proof.
  intros Hp Hv Ha w w'. split.
  - unfold Spec.integrateChecked. fold w'. destruct dt as [d |]; simpl.
    + assert (H0 : Q2R 0 = 0%R) by (unfold Q2R; simpl; lra). rewrite H0.
      destruct (Req_dec_T d d) as [_ | Hne]; [| by destruct Hne].
      destruct (Rlt_dec d 0) as [Hlt | Hge]; simpl.
      * split; [done |]. intros (d' & [= <-] & Hd'). lra.
      * split; [| done]. intros _. exists d. split; [done | lra].
    + split; [done |]. by intros (d & ? & _).
  - assert (Hp' : positions w !! k = Some (Some p)).
    { simpl. unfold Exact.fin. by rewrite list_lookup_fmap, Hp. }
    assert (Hv' : velocities w !! k = Some (Some v)).
    { simpl. unfold Exact.fin. by rewrite list_lookup_fmap, Hv. }
    assert (Ha' : accelerations w !! k = Some (Some a)).
    { simpl. unfold Exact.fin. by rewrite list_lookup_fmap, Ha. }
    pose proof (lookup_lt_Some _ _ _ Hp') as Hk.
    subst w'. unfold integrate. cbn [positions velocities].
    rewrite (@cblas_daxpy_lookup exact _ _ _ _ k _ _ Hk Hv' Hp').
    rewrite (@cblas_daxpy_lookup exact _ _ _ _ k _ _ Hk Ha' Hv').
    by destruct dt.
Qed.

Lemma integrate_unchecked_witness :
  let P := [3; 4]%R in
  let V := [2; 0]%R in
  let Ac := [0; 1000]%R in
  (P !! 0%nat = Some 3%R /\ V !! 0%nat = Some 2%R /\ Ac !! 0%nat = Some 0%R)
  /\ positions (@integrate exact (Some (-1)%R) (exactWorld P V Ac [0.5%R])) !! 0%nat
     = Some (Some (-1 * 2 + 3)%R).
Proof.
  intros P V Ac. split; [done |].
  exact (proj1 (proj2 (integrate_unchecked (Some (-1)%R) P V Ac [0.5%R] 0 3 2 0
                         eq_refl eq_refl eq_refl))).
Defined.

(** ** The resolver, over any arithmetic *)

Section Resolver.

Context {A : Arith}.

Implicit Types (w : World) (s : Sim) (E : num).

Lemma setVel_frame w i c v : frame (setVel w i c v) = frame w.
Proof. done. Qed.

Lemma setVel_length w i c v :
  length (velocities (setVel w i c v)) = length (velocities w).
Proof. simpl. apply length_insert. Qed.

Lemma applyImpulse_frame E w i j : frame (applyImpulse E w i j) = frame w.
Proof. done. Qed.

Lemma applyImpulse_length E w i j :
  length (velocities (applyImpulse E w i j)) = length (velocities w).
Proof. unfold applyImpulse. by rewrite !setVel_length. Qed.

(** The test and the contact normal read positions and radii only. *)
Lemma separation_frame w w' i j : frame w = frame w' -> separation w i j = separation w' i j.
Proof. unfold frame, separation, pos. by intros [= -> _ _]. Qed.

Lemma dist2_frame w w' i j : frame w = frame w' -> dist2 w i j = dist2 w' i j.
Proof. intros H. unfold dist2. by rewrite (separation_frame w w' i j H). Qed.

Lemma radiusSum_frame w w' i j : frame w = frame w' -> radiusSum w i j = radiusSum w' i j.
Proof. unfold frame, radiusSum, rad. by intros [= _ _ ->]. Qed.

Lemma overlap_frame w w' i j : frame w = frame w' -> overlap w i j = overlap w' i j.
Proof.
  intros H. unfold overlap.
  by rewrite (dist2_frame w w' i j H), (radiusSum_frame w w' i j H).
Qed.

Lemma guarded_frame w w' i j : frame w = frame w' -> guarded w i j = guarded w' i j.
Proof.
  intros H. unfold guarded.
  by rewrite (separation_frame w w' i j H), (dist2_frame w w' i j H),
    (radiusSum_frame w w' i j H).
Qed.

Lemma normal_frame w w' i j : frame w = frame w' -> normal w i j = normal w' i j.
Proof. intros H. unfold normal. by rewrite (guarded_frame w w' i j H). Qed.

Lemma collide_frame E i j s : frame (world (collide E i j s)) = frame (world s).
Proof. unfold collide. by destruct (overlap (world s) i j). Qed.

Lemma collide_length E i j s :
  length (velocities (world (collide E i j s))) = length (velocities (world s)).
Proof.
  unfold collide. destruct (overlap (world s) i j); [| done].
  simpl. apply applyImpulse_length.
Qed.

Lemma collide_hits E i j s :
  hits (collide E i j s)
  = hits s ++ (if overlap (world s) i j then [(i, j)] else []).
Proof.
  unfold collide. destruct (overlap (world s) i j); [done |].
  by rewrite app_nil_r.
Qed.

(** *** Sequences of tests *)

Lemma foldl_pointwise {B C} (f g : B -> C -> B) (l : list C) (b : B) :
  (forall b x, f b x = g b x) -> foldl f b l = foldl g b l.
Proof.
  intros Hfg. revert b. induction l as [| x l IH]; intros b; [done |].
  simpl. by rewrite Hfg, IH.
Qed.

Lemma tests_app E l1 l2 s : tests E (l1 ++ l2) s = tests E l2 (tests E l1 s).
Proof. unfold tests. apply foldl_app. Qed.

Lemma tests_bind {B} E (f : B -> list (nat * nat)) (l : list B) s :
  tests E (l ≫= f) s = foldl (fun s x => tests E (f x) s) s l.
Proof.
  revert s. induction l as [| x l IH]; intros s; [done |].
  cbn [mbind list_bind foldl]. by rewrite tests_app, <- IH.
Qed.

Lemma tests_frame E l s : frame (world (tests E l s)) = frame (world s).
Proof.
  revert s. induction l as [| p l IH]; intros s; [done |].
  cbn [tests foldl]. fold (tests E l (collide E p.1 p.2 s)).
  by rewrite IH, collide_frame.
Qed.

Lemma tests_length E l s :
  length (velocities (world (tests E l s))) = length (velocities (world s)).
Proof.
  revert s. induction l as [| p l IH]; intros s; [done |].
  cbn [tests foldl]. fold (tests E l (collide E p.1 p.2 s)).
  by rewrite IH, collide_length.
Qed.

(** The log of a sequence of tests: the pairs that overlap, in the order
    of the visit. *)
Lemma tests_hits E l s :
  hits (tests E l s)
  = hits s ++ List.filter (fun p => overlap (world s) p.1 p.2) l.
Proof.
  revert s. induction l as [| p l IH]; intros s.
  - simpl. by rewrite app_nil_r.
  - cbn [tests foldl]. fold (tests E l (collide E p.1 p.2 s)).
    rewrite IH, collide_hits. cbn [List.filter].
    rewrite (List.filter_ext (fun p0 => overlap (world (collide E p.1 p.2 s)) p0.1 p0.2)
               (fun p0 => overlap (world s) p0.1 p0.2)).
    2:{ intros q. apply overlap_frame, collide_frame. }
    destruct (overlap (world s) p.1 p.2).
    + rewrite <- app_assoc. simpl. by destruct p.
    + by rewrite app_nil_r.
Qed.

(** *** The loops visit the listed pairs *)

Lemma intraCell_tests E cell s : intraCell E cell s = tests E (intraPairs cell) s.
Proof.
  revert s. induction cell as [| i rest IH]; intros s; [done |].
  cbn [intraCell intraPairs]. rewrite tests_app, IH. f_equal.
  unfold tests. by rewrite foldl_fmap.
Qed.

Lemma crossCell_tests E cell nb s : crossCell E cell nb s = tests E (crossPairs cell nb) s.
Proof.
  unfold crossCell, crossPairs. rewrite tests_bind.
  revert s. induction cell as [| i cell IH]; intros s; [done |].
  cbn [foldl]. rewrite <- IH. f_equal.
  rewrite tests_bind. clear IH.
  revert s. induction nb as [| j nb IHn]; intros s; [done |].
  cbn [foldl]. rewrite <- IHn. f_equal.
  by destruct (i <? j)%nat.
Qed.

Lemma interCell_tests E grid key cell s :
  interCell E grid key cell s = tests E (interPairs grid key cell) s.
Proof.
  unfold interCell, interPairs. rewrite tests_bind.
  apply foldl_pointwise. intros s1 dx. rewrite tests_bind.
  apply foldl_pointwise. intros s2 dy.
  destruct ((dx =? 0)%Z && (dy =? 0)%Z); [done |].
  destruct (grid !! _); [apply crossCell_tests | done].
Qed.

Lemma processCell_tests E grid key s :
  processCell E grid key s = tests E (cellPairs grid key) s.
Proof.
  unfold processCell, cellPairs.
  by rewrite tests_app, interCell_tests, intraCell_tests.
Qed.

Lemma processCells_tests E grid keys a b s :
  processCells E grid keys a b s = tests E (rangePairs grid keys a b) s.
Proof.
  unfold processCells, rangePairs. rewrite tests_bind.
  generalize (seqZ a (b - a)). intros l.
  revert s. induction l as [| idx l IH]; intros s; [done |].
  cbn [foldl]. rewrite <- IH. f_equal.
  destruct (keys !! Z.to_nat idx); [apply processCell_tests | done].
Qed.

End Resolver.

(** *** All threads together visit every cell once, in the order of [CellKeys] *)

Section AllThreads.

Context {A : Arith}.

Lemma chunks_concat (M T : Z) (n : nat) :
  (0 <= M <= INT_MAX)%Z -> (1 <= T < 2 ^ 32)%Z -> (Z.of_nat n <= T)%Z ->
  (seqZ 0 (Z.of_nat n) ≫=
     fun k => seqZ (Spec.chunkStart M T k)
                   (Spec.chunkStart M T (k + 1) - Spec.chunkStart M T k))
  = seqZ 0 (Spec.chunkStart M T (Z.of_nat n)).
Proof.
  intros HM HT. induction n as [| n IH]; intros Hn.
  - change (Z.of_nat 0) with 0%Z. by rewrite chunkStart_0.
  - replace (Z.of_nat (S n)) with (Z.of_nat n + 1)%Z by lia.
    rewrite seqZ_app by lia. rewrite bind_app, IH by lia.
    change (seqZ (0 + Z.of_nat n) 1) with [(0 + Z.of_nat n)%Z].
    rewrite Z.add_0_l. cbn [mbind list_bind]. rewrite app_nil_r.
    pose proof (chunkStart_range M T HM HT (Z.of_nat n) ltac:(lia)).
    pose proof (chunkStart_mono M T HM HT (Z.of_nat n) (Z.of_nat n + 1) ltac:(lia)).
    rewrite <- (Z.add_0_l (Spec.chunkStart M T (Z.of_nat n))) at 2.
    rewrite <- seqZ_app by lia. f_equal. lia.
Qed.

Lemma bind_indices {B C} (f : B -> list C) (l pre : list B) :
  (seq (length pre) (length l) ≫=
     fun i => match (pre ++ l) !! i with Some x => f x | None => [] end)
  = l ≫= f.
Proof.
  revert pre. induction l as [| x l IH]; intros pre; [done |].
  cbn [length seq mbind list_bind].
  rewrite lookup_app_r, Nat.sub_diag by lia. cbn [lookup list_lookup].
  f_equal. specialize (IH (pre ++ [x])).
  rewrite length_app, Nat.add_1_r, <- app_assoc in IH. exact IH.
Qed.

Lemma bind_bind {B C D} (f : B -> list C) (g : C -> list D) (l : list B) :
  (l ≫= f) ≫= g = l ≫= (fun x => f x ≫= g).
Proof.
  induction l as [| x l IH]; [done |].
  cbn [mbind list_bind]. rewrite bind_app. by f_equal.
Qed.

Lemma rangePairs_all grid (keys : list CellKey) :
  rangePairs grid keys 0 (Z.of_nat (length keys)) = scanPairs grid keys.
Proof.
  unfold rangePairs, scanPairs. rewrite Z.sub_0_r.
  unfold seqZ. rewrite Nat2Z.id, list_fmap_bind.
  etrans; [| exact (bind_indices (cellPairs grid) keys [])].
  apply list_bind_ext; [| done]. intros i. simpl.
  by rewrite Z.add_0_r, Nat2Z.id.
Qed.

Lemma runThreads_tests E grid (keys : list CellKey) (T : Z) s :
  (Z.of_nat (length keys) <= INT_MAX)%Z -> (1 <= T < 2 ^ 32)%Z ->
  runThreads E grid keys T s = tests E (scanPairs grid keys) s.
Proof.
  intros Hlen HT. set (M := Z.of_nat (length keys)).
  assert (HM : (0 <= M <= INT_MAX)%Z) by (subst M; lia).
  unfold runThreads. fold M.
  rewrite to_i32_id by (unfold INT_MIN; unfold INT_MAX in *; lia).
  rewrite threadRanges_chunks by done.
  rewrite foldl_fmap.
  erewrite foldl_pointwise.
  2:{ intros s' k. simpl. apply processCells_tests. }
  rewrite <- (tests_bind E
    (fun k => rangePairs grid keys (Spec.chunkStart M T k) (Spec.chunkStart M T (k + 1)))).
  f_equal. rewrite <- rangePairs_all. fold M.
  pose proof (chunks_concat M T (Z.to_nat T) HM HT ltac:(lia)) as Hcat.
  rewrite Z2Nat.id, chunkStart_T in Hcat by lia.
  unfold rangePairs at 2. rewrite Z.sub_0_r, <- Hcat, bind_bind. done.
Qed.

End AllThreads.

(** C9: a thread's pass over its range of cells, and the passes of all
    threads run one after the other, leave every position, every
    acceleration and every radius as they were, whatever the grid and the
    list of cells; only entries of the velocity buffer are written. *)
Theorem resolver_writes_velocities_only {A : Arith} (ENTROPY : num)
    (grid : gmap CellKey (list nat)) (CellKeys : list CellKey) (s : Sim) :
  (forall start end_ : Z,
     let s' := processCells ENTROPY grid CellKeys start end_ s in
     positions (world s') = positions (world s)
     /\ accelerations (world s') = accelerations (world s)
     /\ radius (world s') = radius (world s)
     /\ length (velocities (world s')) = length (velocities (world s)))
  /\ (forall numThreads : Z,
     let s' := runThreads ENTROPY grid CellKeys numThreads s in
     positions (world s') = positions (world s)
     /\ accelerations (world s') = accelerations (world s)
     /\ radius (world s') = radius (world s)
     /\ length (velocities (world s')) = length (velocities (world s))).
Proof.
  assert (Hcells : forall a b s0,
    frame (world (processCells ENTROPY grid CellKeys a b s0)) = frame (world s0)
    /\ length (velocities (world (processCells ENTROPY grid CellKeys a b s0)))
       = length (velocities (world s0))).
  { intros a b s0. rewrite processCells_tests. split; [apply tests_frame | apply tests_length]. }
  split.
  - intros a b s'. subst s'. destruct (Hcells a b s) as [Hf Hl].
    unfold frame in Hf. by injection Hf as -> -> ->.
  - intros T s'. subst s'. unfold runThreads.
    generalize (threadRanges (to_i32 (Z.of_nat (length CellKeys))) T). intros ranges.
    revert s. induction ranges as [| [a b] ranges IH]; intros s; [done |].
    cbn [foldl]. destruct (IH (processCells ENTROPY grid CellKeys a b s)) as (-> & -> & -> & ->).
    destruct (Hcells a b s) as [Hf Hl].
    unfold frame in Hf. by injection Hf as -> -> ->.
Qed.

(** ** One pair resolution, over any arithmetic *)

Section Impulse.

Context {A : Arith}.

Implicit Types (w : World) (E : num).

Lemma rd_insert_eq (l : list num) k v : (k < length l)%nat -> rd (<[k := v]> l) k = v.
Proof. intros H. unfold rd. by rewrite list_lookup_insert_eq. Qed.

Lemma rd_insert_ne (l : list num) k k' v : k <> k' -> rd (<[k := v]> l) k' = rd l k'.
Proof. intros H. unfold rd. by rewrite list_lookup_insert_ne. Qed.

Lemma vel_setVel_eq w i c v :
  (i * DIMENSION + c < length (velocities w))%nat -> vel (setVel w i c v) i c = v.
Proof. intros H. unfold vel, setVel. simpl. by apply rd_insert_eq. Qed.

Lemma vel_setVel_ne w i c i' c' v :
  (i * DIMENSION + c <> i' * DIMENSION + c')%nat ->
  vel (setVel w i c v) i' c' = vel w i' c'.
Proof. intros H. unfold vel, setVel. simpl. by apply rd_insert_ne. Qed.

(** What [applyImpulse] leaves in the velocity buffer: the same quantity
    [kick] is subtracted from particle [i] and added to particle [j], axis
    by axis; every other particle keeps its velocity. *)
Lemma applyImpulse_vel E w i j :
  i <> j ->
  (i * DIMENSION + Y < length (velocities w))%nat ->
  (j * DIMENSION + Y < length (velocities w))%nat ->
  let n := normal w i j in
  let impulse := relVel w i j n in
  let w' := applyImpulse E w i j in
  vel w' i X = to_double (fsub (to_float (vel w i X)) (kick E impulse (fst n)))
  /\ vel w' i Y = to_double (fsub (to_float (vel w i Y)) (kick E impulse (snd n)))
  /\ vel w' j X = to_double (fadd (to_float (vel w j X)) (kick E impulse (fst n)))
  /\ vel w' j Y = to_double (fadd (to_float (vel w j Y)) (kick E impulse (snd n)))
  /\ (forall k c, k <> i -> k <> j -> (c < DIMENSION)%nat -> vel w' k c = vel w k c).
Proof.
  intros Hij Hi Hj n impulse w'. subst w'. unfold applyImpulse. fold n. fold impulse.
  unfold DIMENSION, X, Y in *.
  repeat split.
  - rewrite !vel_setVel_ne by (unfold DIMENSION, X, Y; lia).
    apply vel_setVel_eq. unfold DIMENSION. lia.
  - rewrite !vel_setVel_ne by (unfold DIMENSION, X, Y; lia).
    apply vel_setVel_eq. rewrite setVel_length. unfold DIMENSION. lia.
  - rewrite vel_setVel_ne by (unfold DIMENSION, X, Y; lia).
    apply vel_setVel_eq. rewrite !setVel_length. unfold DIMENSION. lia.
  - apply vel_setVel_eq. rewrite !setVel_length. unfold DIMENSION. lia.
  - intros k c Hki Hkj Hc.
    rewrite !vel_setVel_ne by (unfold DIMENSION, X, Y in *; lia). done.
Qed.

End Impulse.

(** ** One pair resolution in exact arithmetic *)

Section ExactPair.

#[local] Existing Instance exact.

Local Open Scope R_scope.

Variables P V Ac Rd : list R.

Let w : World := exactWorld P V Ac Rd.

Lemma rd_fin (l : list R) k : rd (Exact.fin l) k = Some (Exact.get l k).
Proof.
  unfold rd, Exact.fin, Exact.get. rewrite list_lookup_fmap.
  by destruct (l !! k).
Qed.

Lemma pos_exact i c : pos w i c = Some (Exact.get P (i * DIMENSION + c)).
Proof. apply rd_fin. Qed.

Lemma vel_exact i c : vel w i c = Some (Exact.get V (i * DIMENSION + c)).
Proof. apply rd_fin. Qed.

Lemma rad_exact i : rad w i = Some (Exact.get Rd i).
Proof. apply rd_fin. Qed.

Lemma separation_exact i j :
  separation w i j = (Some (Exact.dx P i j), Some (Exact.dy P i j)).
Proof. unfold separation. by rewrite !pos_exact. Qed.

Lemma dist2_exact i j : dist2 w i j = Some (Exact.d2 P i j).
Proof. unfold dist2. by rewrite separation_exact. Qed.

Lemma radiusSum_exact i j : radiusSum w i j = Some (Exact.rsum Rd i j).
Proof. unfold radiusSum. by rewrite !rad_exact. Qed.

Lemma d2_nonneg i j : 0 <= Exact.d2 P i j.
Proof. unfold Exact.d2. nra. Qed.

Lemma d2_zero i j : Exact.d2 P i j = 0 <-> Exact.dx P i j = 0 /\ Exact.dy P i j = 0.
Proof. unfold Exact.d2. split; [intros H; split; nra | intros [-> ->]; lra]. Qed.

Lemma overlap_exact i j :
  overlap w i j = true <-> Exact.d2 P i j < Exact.rsum Rd i j * Exact.rsum Rd i j.
Proof.
  unfold overlap. rewrite dist2_exact, radiusSum_exact. simpl.
  destruct (Rlt_dec _ _); split; done.
Qed.

Lemma Q2R_0 : Q2R 0 = 0.
Proof. unfold Q2R. simpl. lra. Qed.

Lemma Q2R_tenth : Q2R 0.1 = 1 / 10.
Proof. unfold Q2R. simpl. lra. Qed.

Lemma root_d2 i j : @fsqrt exact (Some (Exact.d2 P i j)) = Some (sqrt (Exact.d2 P i j)).
Proof.
  simpl. pose proof (d2_nonneg i j). destruct (Rlt_dec _ _); [lra | done].
Qed.

Lemma sqrt_d2_zero i j : sqrt (Exact.d2 P i j) = 0 <-> Exact.d2 P i j = 0.
Proof.
  split; [apply sqrt_eq_0, d2_nonneg | intros ->; apply sqrt_0].
Qed.

(** Distinct centres: the guard leaves distance and separation alone. *)
Lemma guarded_exact_apart i j :
  Exact.d2 P i j <> 0 ->
  guarded w i j = (Some (sqrt (Exact.d2 P i j)), Some (Exact.dx P i j), Some (Exact.dy P i j)).
Proof.
  intros Hne. unfold guarded. rewrite separation_exact, dist2_exact, root_d2.
  simpl. rewrite Q2R_0. destruct (Req_dec_T _ _) as [H0 | _]; [| done].
  by apply sqrt_d2_zero in H0.
Qed.

(** Coinciding centres: distance [0.1], separation [(radiusSum, 0)]. *)
Lemma guarded_exact_same i j :
  Exact.d2 P i j = 0 ->
  guarded w i j = (Some (Q2R 0.1), Some (Exact.rsum Rd i j), Some (Q2R 0)).
Proof.
  intros H0. unfold guarded. rewrite separation_exact, dist2_exact, root_d2, radiusSum_exact.
  simpl. rewrite Q2R_0. destruct (Req_dec_T _ _) as [_ | Hne]; [done |].
  by apply sqrt_d2_zero in H0.
Qed.

Lemma normal_exact_apart i j :
  Exact.d2 P i j <> 0 ->
  normal w i j = (Some (Exact.dx P i j / sqrt (Exact.d2 P i j)),
                  Some (Exact.dy P i j / sqrt (Exact.d2 P i j))).
Proof.
  intros Hne. unfold normal. rewrite guarded_exact_apart by done. simpl.
  destruct (Req_dec_T _ _) as [H0 | _]; [| done].
  by apply sqrt_d2_zero in H0.
Qed.

Lemma normal_exact_same i j :
  Exact.d2 P i j = 0 ->
  normal w i j = (Some (Exact.rsum Rd i j / Q2R 0.1), Some (Q2R 0 / Q2R 0.1)).
Proof.
  intros H0. unfold normal. rewrite guarded_exact_same by done. simpl.
  destruct (Req_dec_T _ _) as [Hz | _]; [| done].
  rewrite Q2R_tenth in Hz. lra.
Qed.

(** In either case the normal is a pair of finite numbers. *)
Lemma normal_exact_finite i j : exists nx ny, normal w i j = (Some nx, Some ny).
Proof.
  destruct (Req_dec_T (Exact.d2 P i j) 0) as [H0 | Hne].
  - rewrite normal_exact_same by done. eauto.
  - rewrite normal_exact_apart by done. eauto.
Qed.

(** Distinct centres give a unit normal. *)
Lemma normal_unit i j :
  Exact.d2 P i j <> 0 ->
  let nx := Exact.dx P i j / sqrt (Exact.d2 P i j) in
  let ny := Exact.dy P i j / sqrt (Exact.d2 P i j) in
  nx * nx + ny * ny = 1.
Proof.
  intros Hne nx ny. subst nx ny.
  pose proof (d2_nonneg i j) as Hpos.
  assert (Hs : sqrt (Exact.d2 P i j) <> 0) by (by rewrite sqrt_d2_zero).
  pose proof (sqrt_sqrt _ Hpos) as Hsq.
  set (r := sqrt (Exact.d2 P i j)) in *. clearbody r.
  unfold Exact.d2 in Hsq. field_simplify_eq; [| done]. nra.
Qed.

Lemma relVel_exact i j nx ny :
  relVel w i j (Some nx, Some ny) = Some (Exact.along V i j nx ny).
Proof. unfold relVel. by rewrite !vel_exact. Qed.

End ExactPair.

Section ExactClaims.

#[local] Existing Instance exact.

Local Open Scope R_scope.

Lemma wellFormed_vel_bound N P V Ac Rd i :
  wellFormed N (exactWorld P V Ac Rd) -> (i < N)%nat ->
  (i * DIMENSION + Y < length V)%nat.
Proof.
  intros (_ & Hv & _) Hi. simpl in Hv. unfold Exact.fin in Hv.
  rewrite length_fmap in Hv. rewrite Hv. unfold DIMENSION, Y. lia.
Qed.

Lemma applyImpulse_exact P V Ac Rd (e : R) i j nx ny :
  let w := exactWorld P V Ac Rd in
  i <> j ->
  (i * DIMENSION + Y < length V)%nat ->
  (j * DIMENSION + Y < length V)%nat ->
  normal w i j = (Some nx, Some ny) ->
  let q := Exact.along V i j nx ny in
  let w' := applyImpulse (Some e) w i j in
  vel w' i X = Some (Exact.get V (i * DIMENSION + X) - q * nx * (1 - e))
  /\ vel w' i Y = Some (Exact.get V (i * DIMENSION + Y) - q * ny * (1 - e))
  /\ vel w' j X = Some (Exact.get V (j * DIMENSION + X) + q * nx * (1 - e))
  /\ vel w' j Y = Some (Exact.get V (j * DIMENSION + Y) + q * ny * (1 - e)).
Proof.
  intros w Hij Hi Hj Hn q w'.
  destruct (@applyImpulse_vel exact (Some e) w i j Hij) as (H1 & H2 & H3 & H4 & _).
  { simpl. unfold Exact.fin. by rewrite length_fmap. }
  { simpl. unfold Exact.fin. by rewrite length_fmap. }
  fold w' in H1, H2, H3, H4. rewrite H1, H2, H3, H4, Hn. subst w.
  rewrite relVel_exact, !vel_exact. done.
Qed.

(** One pair test in exact arithmetic: it overlaps and is resolved, or
    nothing is written; either way the four components stay finite and
    what [i] loses on an axis is what [j] gains. *)
Lemma collide_kick_exact (P V Ac Rd : list R) (log : list (nat * nat))
    (e : R) (i j : nat) :
  i <> j ->
  (i * DIMENSION + Y < length V)%nat ->
  (j * DIMENSION + Y < length V)%nat ->
  let s' := collide (Some e) i j (mkSim (exactWorld P V Ac Rd) log) in
  exists qx qy,
    vel (world s') i X = Some (Exact.get V (i * DIMENSION + X) - qx)
    /\ vel (world s') i Y = Some (Exact.get V (i * DIMENSION + Y) - qy)
    /\ vel (world s') j X = Some (Exact.get V (j * DIMENSION + X) + qx)
    /\ vel (world s') j Y = Some (Exact.get V (j * DIMENSION + Y) + qy).
Proof.
  intros Hij Hi Hj s'. subst s'. unfold collide. cbn [world hits].
  destruct (overlap (exactWorld P V Ac Rd) i j).
  - destruct (normal_exact_finite P V Ac Rd i j) as (nx & ny & Hn).
    destruct (applyImpulse_exact P V Ac Rd e i j nx ny Hij Hi Hj Hn) as (H1 & H2 & H3 & H4).
    cbn [world]. rewrite H1, H2, H3, H4.
    by exists (Exact.along V i j nx ny * nx * (1 - e)), (Exact.along V i j nx ny * ny * (1 - e)).
  - cbn [world]. rewrite !vel_exact. exists 0, 0.
    repeat split; f_equal; lra.
Qed.



(** The relative velocity along the normal after one resolution, for any
    normal and any [ENTROPY]. *)
Lemma relVel_after P V Ac Rd (e : R) i j nx ny :
  let w := exactWorld P V Ac Rd in
  i <> j ->
  (i * DIMENSION + Y < length V)%nat ->
  (j * DIMENSION + Y < length V)%nat ->
  normal w i j = (Some nx, Some ny) ->
  let before := Exact.along V i j nx ny in
  relVel (applyImpulse (Some e) w i j) i j (Some nx, Some ny)
  = Some (before - 2 * (1 - e) * (nx * nx + ny * ny) * before).
Proof.
  intros w Hij Hi Hj Hn before.
  destruct (applyImpulse_exact P V Ac Rd e i j nx ny Hij Hi Hj Hn) as (H1 & H2 & H3 & H4).
  unfold relVel. fold w in H1, H2, H3, H4. rewrite H1, H2, H3, H4. simpl.
  f_equal. subst before. unfold Exact.along. ring.
Qed.






End ExactClaims.

(** ** The grid, over any arithmetic *)

Section GridFacts.

Context {A : Arith}.

Implicit Types (w : World) (grid : gmap CellKey (list nat)).

Lemma buildGrid_S n w :
  buildGrid (S n) w
  = grid ← buildGrid n w; key ← keyOf w n; Some (gridInsert grid key n).
Proof. unfold buildGrid. by rewrite seq_S, foldl_app. Qed.

Lemma bucket_S w n k :
  bucket w (S n) k
  = bucket w n k ++ (if decide (keyOf w n = Some k) then [n] else []).
Proof.
  unfold bucket. by rewrite seq_S, filter_app.
Qed.

(** After the rebuild, the bucket of a cell holds the particles of that
    cell in increasing order; cells without particles have no bucket. *)
Lemma buildGrid_lookup n w grid k :
  buildGrid n w = Some grid ->
  grid !! k = match bucket w n k with [] => None | l => Some l end.
Proof.
  revert grid. induction n as [| n IH]; intros grid Hb.
  - injection Hb as <-. by rewrite lookup_empty.
  - rewrite buildGrid_S in Hb.
    destruct (buildGrid n w) as [g |]; [| done]. simpl in Hb.
    destruct (keyOf w n) as [key |] eqn:Hkey; [| done]. simpl in Hb.
    injection Hb as <-. specialize (IH g eq_refl).
    rewrite bucket_S, Hkey. unfold gridInsert.
    destruct (decide (Some key = Some k)) as [[= ->] | Hne].
    + rewrite lookup_insert_eq, IH.
      destruct (bucket w n k); done.
    + rewrite lookup_insert_ne by congruence. rewrite IH, app_nil_r. done.
Qed.

Lemma buildGrid_keys n w grid i :
  buildGrid n w = Some grid -> (i < n)%nat -> is_Some (keyOf w i).
Proof.
  revert grid. induction n as [| n IH]; intros grid Hb Hi; [lia |].
  rewrite buildGrid_S in Hb.
  destruct (buildGrid n w) as [g |]; [| done]. simpl in Hb.
  destruct (keyOf w n) as [key |] eqn:Hkey; [| done].
  destruct (decide (i = n)) as [-> | Hne]; [by rewrite Hkey |].
  apply (IH g); [done | lia].
Qed.

Lemma buildGrid_is_Some n w :
  (forall i, (i < n)%nat -> is_Some (keyOf w i)) -> is_Some (buildGrid n w).
Proof.
  induction n as [| n IH]; intros Hk; [by eexists |].
  rewrite buildGrid_S.
  destruct IH as [g ->]; [intros i Hi; apply Hk; lia |].
  destruct (Hk n ltac:(lia)) as [key ->]. by eexists.
Qed.

Lemma buildGrid_size n w grid :
  buildGrid n w = Some grid -> (size grid <= n)%nat.
Proof.
  revert grid. induction n as [| n IH]; intros grid Hb.
  - injection Hb as <-. by rewrite map_size_empty.
  - rewrite buildGrid_S in Hb.
    destruct (buildGrid n w) as [g |]; [| done]. simpl in Hb.
    destruct (keyOf w n) as [key |]; [| done]. simpl in Hb.
    injection Hb as <-. specialize (IH g eq_refl). unfold gridInsert.
    rewrite map_size_insert. destruct (g !! key); simpl; lia.
Qed.

Lemma elem_of_bucket w n k i :
  i ∈ bucket w n k <-> keyOf w i = Some k /\ (i < n)%nat.
Proof.
  unfold bucket. rewrite list_elem_of_filter, elem_of_seq. split; intros [H1 H2]; split; try done; lia.
Qed.

Lemma seq_sorted a n : StronglySorted lt (seq a n).
Proof.
  revert a. induction n as [| n IH]; intros a; [constructor |].
  simpl. apply StronglySorted_cons. split; [| apply IH].
  apply Forall_forall. intros x Hx%elem_of_seq. lia.
Qed.

Lemma filter_sorted (Q : nat -> Prop) `{!forall x, Decision (Q x)} (l : list nat) :
  StronglySorted lt l -> StronglySorted lt (filter Q l).
Proof.
  induction l as [| x l IH]; intros Hs; [constructor |].
  apply StronglySorted_cons in Hs as [Hx Hl].
  rewrite filter_cons. destruct (decide (Q x)); [| by apply IH].
  apply StronglySorted_cons. split; [| by apply IH].
  apply Forall_forall. intros y Hy%list_elem_of_filter.
  rewrite Forall_forall in Hx. apply Hx. tauto.
Qed.

Lemma bucket_sorted w n k : StronglySorted lt (bucket w n k).
Proof. apply filter_sorted, seq_sorted. Qed.

(** *** Which pairs a cell visits *)

Lemma elem_of_intraPairs (l : list nat) i j :
  StronglySorted lt l ->
  (i, j) ∈ intraPairs l <-> i ∈ l /\ j ∈ l /\ (i < j)%nat.
Proof.
  induction l as [| x l IH]; intros Hs.
  - simpl. split; [by intros ?%not_elem_of_nil | by intros [?%not_elem_of_nil _]].
  - apply StronglySorted_cons in Hs as [Hx Hl]. rewrite Forall_forall in Hx.
    cbn [intraPairs]. rewrite elem_of_app, list_elem_of_fmap, (IH Hl), !elem_of_cons.
    split.
    + intros [(y & [= -> ->] & Hy) | (Hi & Hj & Hij)]; [| tauto].
      split; [by left |]. split; [by right | by apply Hx].
    + intros ([-> | Hi] & [-> | Hj] & Hij).
      * lia.
      * left. by exists j.
      * specialize (Hx _ Hi). lia.
      * right. done.
Qed.

Lemma elem_of_crossPairs (l1 l2 : list nat) i j :
  (i, j) ∈ crossPairs l1 l2 <-> i ∈ l1 /\ j ∈ l2 /\ (i < j)%nat.
Proof.
  unfold crossPairs. rewrite list_elem_of_bind. split.
  - intros (a & Hin & Ha). apply list_elem_of_bind in Hin as (b & Hin & Hb).
    destruct (Nat.ltb_spec a b) as [Hlt | Hge]; [| by apply not_elem_of_nil in Hin].
    apply list_elem_of_singleton in Hin as [= -> ->]. done.
  - intros (Hi & Hj & Hij). exists i. split; [| done].
    apply list_elem_of_bind. exists j. split; [| done].
    destruct (Nat.ltb_spec i j); [by apply list_elem_of_singleton | lia].
Qed.

Lemma elem_of_interPairs grid (key : CellKey) (cell : list nat) i j :
  (i, j) ∈ interPairs grid key cell <->
  exists (dx dy : Z) nb,
    (-1 <= dx <= 1)%Z /\ (-1 <= dy <= 1)%Z /\ ~ (dx = 0 /\ dy = 0)%Z
    /\ grid !! ((key.1 + dx, key.2 + dy)%Z : CellKey) = Some nb
    /\ i ∈ cell /\ j ∈ nb /\ (i < j)%nat.
Proof.
  assert (Hrange : forall d : Z, d ∈ [-1; 0; 1]%Z <-> (-1 <= d <= 1)%Z).
  { intros d. rewrite !elem_of_cons. split; [| intros Hd].
    - intros [-> | [-> | [-> | ?%not_elem_of_nil]]]; lia.
    - assert (d = -1 \/ d = 0 \/ d = 1)%Z as [-> | [-> | ->]] by lia; tauto. }
  unfold interPairs. rewrite list_elem_of_bind. split.
  - intros (dx & Hin & Hdx%Hrange). apply list_elem_of_bind in Hin as (dy & Hin & Hdy%Hrange).
    destruct ((dx =? 0)%Z && (dy =? 0)%Z) eqn:Hz; [by apply not_elem_of_nil in Hin |].
    destruct (grid !! _) as [nb |] eqn:Hnb; [| by apply not_elem_of_nil in Hin].
    apply elem_of_crossPairs in Hin. exists dx, dy, nb.
    split; [done |]. split; [done |]. split; [| done].
    intros [-> ->]. done.
  - intros (dx & dy & nb & Hdx & Hdy & Hnz & Hnb & Hin).
    exists dx. split; [| by apply Hrange].
    apply list_elem_of_bind. exists dy. split; [| by apply Hrange].
    destruct ((dx =? 0)%Z && (dy =? 0)%Z) eqn:Hz.
    { apply andb_prop in Hz as [?%Z.eqb_eq ?%Z.eqb_eq]. tauto. }
    rewrite Hnb. by apply elem_of_crossPairs.
Qed.

End GridFacts.

Section ScanFacts.

Context {A : Arith}.

Implicit Types (w : World) (grid : gmap CellKey (list nat)).

Lemma elem_of_cellKeys grid (k : CellKey) : k ∈ cellKeys grid <-> is_Some (grid !! k).
Proof.
  unfold cellKeys. rewrite list_elem_of_fmap. split.
  - intros ([k' l] & -> & Hin%elem_of_map_to_list). by eexists.
  - intros [l Hl]. exists (k, l). split; [done |]. by apply elem_of_map_to_list.
Qed.

Lemma cellKeys_length grid : length (cellKeys grid) = size grid.
Proof. unfold cellKeys. by rewrite length_fmap, length_map_to_list. Qed.

Lemma buildGrid_bucket n w grid k :
  buildGrid n w = Some grid -> default [] (grid !! k) = bucket w n k.
Proof.
  intros Hb. rewrite (buildGrid_lookup n w grid k Hb). by destruct (bucket w n k).
Qed.

Lemma buildGrid_bucket_Some n w grid k l :
  buildGrid n w = Some grid -> grid !! k = Some l -> l = bucket w n k.
Proof.
  intros Hb Hl. rewrite <- (buildGrid_bucket n w grid k Hb). by rewrite Hl.
Qed.

Lemma buildGrid_bucket_elem n w grid k i :
  buildGrid n w = Some grid -> i ∈ bucket w n k -> grid !! k = Some (bucket w n k).
Proof.
  intros Hb Hi. rewrite (buildGrid_lookup n w grid k Hb).
  destruct (bucket w n k); [by apply not_elem_of_nil in Hi | done].
Qed.

(** The pairs the scan visits: the pairs [i < j] of particles whose cells
    are equal or neighbours.  The order in which the occupied cells are
    listed does not matter. *)
Lemma elem_of_scanPairs N w grid (keys : list CellKey) i j :
  buildGrid N w = Some grid ->
  keys ≡ₚ cellKeys grid ->
  (i, j) ∈ scanPairs grid keys <->
  (i < j < N)%nat
  /\ exists ki kj, keyOf w i = Some ki /\ keyOf w j = Some kj /\ adjacent ki kj.
Proof.
  intros Hb Hperm. unfold scanPairs. rewrite list_elem_of_bind. split.
  - intros (key & Hin & _). unfold cellPairs in Hin.
    rewrite (buildGrid_bucket N w grid key Hb) in Hin.
    apply elem_of_app in Hin as [Hin | Hin].
    + apply elem_of_intraPairs in Hin as (Hi & Hj & Hij); [| apply bucket_sorted].
      apply elem_of_bucket in Hi as [Hki HiN]. apply elem_of_bucket in Hj as [Hkj HjN].
      split; [lia |]. exists key, key. repeat split; try done; unfold adjacent; lia.
    + apply elem_of_interPairs in Hin as (dx & dy & nb & Hdx & Hdy & _ & Hnb & Hi & Hj & Hij).
      rewrite (buildGrid_bucket_Some N w grid _ nb Hb Hnb) in Hj.
      apply elem_of_bucket in Hi as [Hki HiN]. apply elem_of_bucket in Hj as [Hkj HjN].
      split; [lia |]. eexists key, _. repeat split; try done; simpl; lia.
  - intros (Hij & ki & kj & Hki & Hkj & Hx & Hy).
    assert (Hi : i ∈ bucket w N ki) by (apply elem_of_bucket; split; [done | lia]).
    assert (Hj : j ∈ bucket w N kj) by (apply elem_of_bucket; split; [done | lia]).
    pose proof (buildGrid_bucket_elem N w grid ki i Hb Hi) as Hgi.
    pose proof (buildGrid_bucket_elem N w grid kj j Hb Hj) as Hgj.
    exists ki. split; [| rewrite Hperm; apply elem_of_cellKeys; by eexists].
    unfold cellPairs. rewrite Hgi. simpl. apply elem_of_app.
    destruct (decide (ki = kj)) as [-> | Hne].
    + left. apply elem_of_intraPairs; [apply bucket_sorted |]. repeat split; [done .. | lia].
    + right. apply elem_of_interPairs.
      exists (kj.1 - ki.1)%Z, (kj.2 - ki.2)%Z, (bucket w N kj).
      split; [lia |]. split; [lia |]. split.
      { intros [H1 H2]. apply Hne. destruct ki, kj. simpl in *. f_equal; lia. }
      split; [| repeat split; [done .. | lia]].
      rewrite <- Hgj. f_equal. destruct ki, kj. simpl. f_equal; lia.
Qed.

(** What the threads report, for any arithmetic and any listing of the
    occupied cells: a pair is logged exactly when [i < j], the two cells
    are equal or neighbours, and the test [dist2 < radiusSum * radiusSum]
    succeeds on the frame's positions. *)
Lemma runThreads_hits E N T w grid (keys : list CellKey) :
  (Z.of_nat N <= INT_MAX)%Z -> (1 <= T < 2 ^ 32)%Z ->
  buildGrid N w = Some grid ->
  keys ≡ₚ cellKeys grid ->
  forall i j, (i, j) ∈ hits (runThreads E grid keys T (mkSim w [])) <->
    (i < j < N)%nat
    /\ (exists ki kj, keyOf w i = Some ki /\ keyOf w j = Some kj /\ adjacent ki kj)
    /\ overlap w i j = true.
Proof.
  intros HN HT Hb Hperm i j.
  rewrite runThreads_tests; [| | done].
  2:{ rewrite Hperm, cellKeys_length. pose proof (buildGrid_size N w grid Hb). lia. }
  rewrite tests_hits. cbn [hits world app].
  rewrite list_elem_of_In, List.filter_In, <- list_elem_of_In.
  rewrite (elem_of_scanPairs N w grid keys i j Hb Hperm). simpl. tauto.
Qed.

(** *** No pair is visited twice *)

Lemma sorted_NoDup (l : list nat) : StronglySorted lt l -> NoDup l.
Proof.
  induction l as [| x l IH]; intros Hs; [constructor |].
  apply StronglySorted_cons in Hs as [Hx Hl]. rewrite Forall_forall in Hx.
  constructor; [| by apply IH]. intros Hin. specialize (Hx _ Hin). lia.
Qed.

Lemma NoDup_intraPairs (l : list nat) : StronglySorted lt l -> NoDup (intraPairs l).
Proof.
  induction l as [| x l IH]; intros Hs; [constructor |].
  pose proof Hs as [Hx Hl]%StronglySorted_cons. rewrite Forall_forall in Hx.
  cbn [intraPairs]. apply NoDup_app. split; [| split].
  - apply NoDup_fmap_2; [intros a b [= ->]; done | by apply sorted_NoDup].
  - intros [i j] (y & [= -> ->] & Hy)%list_elem_of_fmap Hin.
    apply elem_of_intraPairs in Hin as (Hi & _); [| done].
    specialize (Hx _ Hi). lia.
  - by apply IH.
Qed.

Lemma NoDup_crossPairs (l1 l2 : list nat) :
  NoDup l1 -> NoDup l2 -> NoDup (crossPairs l1 l2).
Proof.
  intros H1 H2. unfold crossPairs. apply NoDup_bind; [| | done].
  - intros i1 i2 [a b] _ _ (j1 & Hin1 & _)%list_elem_of_bind (j2 & Hin2 & _)%list_elem_of_bind.
    destruct (i1 <? j1)%nat; [| by apply not_elem_of_nil in Hin1].
    destruct (i2 <? j2)%nat; [| by apply not_elem_of_nil in Hin2].
    apply list_elem_of_singleton in Hin1 as [= -> ->].
    by apply list_elem_of_singleton in Hin2 as [= -> ->].
  - intros i _. apply NoDup_bind; [| | done].
    + intros j1 j2 [a b] _ _ Hin1 Hin2.
      destruct (i <? j1)%nat; [| by apply not_elem_of_nil in Hin1].
      destruct (i <? j2)%nat; [| by apply not_elem_of_nil in Hin2].
      apply list_elem_of_singleton in Hin1 as [= -> ->].
      by apply list_elem_of_singleton in Hin2 as [= ->].
    + intros j _. destruct (i <? j)%nat; [apply NoDup_singleton | constructor].
Qed.

Lemma NoDup_offsets : NoDup [-1; 0; 1]%Z.
Proof.
  apply NoDup_cons. split.
  { rewrite !elem_of_cons. intros [H | [H | H]]; [done | done | by apply not_elem_of_nil in H]. }
  apply NoDup_cons. split.
  { rewrite !elem_of_cons. intros [H | H]; [done | by apply not_elem_of_nil in H]. }
  apply NoDup_singleton.
Qed.

Lemma NoDup_interPairs N w grid (key : CellKey) :
  buildGrid N w = Some grid -> NoDup (interPairs grid key (bucket w N key)).
Proof.
  intros Hb.
  assert (Hcell : forall (dx dy : Z) p,
    p ∈ (if (dx =? 0)%Z && (dy =? 0)%Z then []
         else match grid !! ((key.1 + dx, key.2 + dy)%Z : CellKey) with
              | Some nb => crossPairs (bucket w N key) nb
              | None => []
              end) ->
    keyOf w p.2 = Some ((key.1 + dx, key.2 + dy)%Z : CellKey)).
  { intros dx dy [i j] Hin.
    destruct ((dx =? 0)%Z && (dy =? 0)%Z); [by apply not_elem_of_nil in Hin |].
    destruct (grid !! _) as [nb |] eqn:Hnb; [| by apply not_elem_of_nil in Hin].
    apply elem_of_crossPairs in Hin as (_ & Hj & _).
    rewrite (buildGrid_bucket_Some N w grid _ nb Hb Hnb) in Hj.
    by apply elem_of_bucket in Hj as [Hkj _]. }
  unfold interPairs. apply NoDup_bind; [| | apply NoDup_offsets].
  - intros dx1 dx2 p _ _ (dy1 & Hin1 & _)%list_elem_of_bind (dy2 & Hin2 & _)%list_elem_of_bind.
    apply Hcell in Hin1. apply Hcell in Hin2. rewrite Hin1 in Hin2.
    injection Hin2 as H1 H2. lia.
  - intros dx _. apply NoDup_bind; [| | apply NoDup_offsets].
    + intros dy1 dy2 p _ _ Hin1 Hin2.
      apply Hcell in Hin1. apply Hcell in Hin2. rewrite Hin1 in Hin2.
      injection Hin2 as H2. lia.
    + intros dy _. destruct ((dx =? 0)%Z && (dy =? 0)%Z); [constructor |].
      destruct (grid !! _) as [nb |] eqn:Hnb; [| constructor].
      apply NoDup_crossPairs; [apply sorted_NoDup, bucket_sorted |].
      rewrite (buildGrid_bucket_Some N w grid _ nb Hb Hnb).
      apply sorted_NoDup, bucket_sorted.
Qed.

Lemma cellPairs_keys N w grid (key : CellKey) i j :
  buildGrid N w = Some grid ->
  (i, j) ∈ cellPairs grid key -> keyOf w i = Some key.
Proof.
  intros Hb Hin. unfold cellPairs in Hin.
  rewrite (buildGrid_bucket N w grid key Hb) in Hin.
  apply elem_of_app in Hin as [Hin | Hin].
  - apply elem_of_intraPairs in Hin as (Hi & _); [| apply bucket_sorted].
    by apply elem_of_bucket in Hi as [? _].
  - apply elem_of_interPairs in Hin as (dx & dy & nb & _ & _ & _ & _ & Hi & _).
    by apply elem_of_bucket in Hi as [? _].
Qed.

Lemma NoDup_cellPairs N w grid (key : CellKey) :
  buildGrid N w = Some grid -> NoDup (cellPairs grid key).
Proof.
  intros Hb. unfold cellPairs. rewrite (buildGrid_bucket N w grid key Hb).
  apply NoDup_app. split; [| split].
  - apply NoDup_intraPairs, bucket_sorted.
  - intros [i j] Hintra Hinter.
    apply elem_of_intraPairs in Hintra as (_ & Hj & _); [| apply bucket_sorted].
    apply elem_of_bucket in Hj as [Hkj _].
    apply elem_of_interPairs in Hinter as (dx & dy & nb & _ & _ & Hnz & Hnb & _ & Hj' & _).
    rewrite (buildGrid_bucket_Some N w grid _ nb Hb Hnb) in Hj'.
    apply elem_of_bucket in Hj' as [Hkj' _]. rewrite Hkj in Hkj'.
    destruct key as [kx ky]. simpl in Hkj'. injection Hkj' as H1 H2.
    apply Hnz. lia.
  - by apply NoDup_interPairs.
Qed.

(** Every pair of the scan is visited once: the tie-break [i < j] leaves
    the visit from the cell of the smaller index only. *)
Lemma NoDup_scanPairs N w grid (keys : list CellKey) :
  buildGrid N w = Some grid -> keys ≡ₚ cellKeys grid -> NoDup (scanPairs grid keys).
Proof.
  intros Hb Hperm. unfold scanPairs. apply NoDup_bind.
  - intros k1 k2 [i j] _ _ Hin1 Hin2.
    apply (cellPairs_keys N w grid k1 i j Hb) in Hin1.
    apply (cellPairs_keys N w grid k2 i j Hb) in Hin2. congruence.
  - intros k _. by apply (NoDup_cellPairs N w).
  - rewrite Hperm. apply NoDup_fst_map_to_list.
Qed.

Lemma runThreads_hits_NoDup E N T w grid (keys : list CellKey) :
  (Z.of_nat N <= INT_MAX)%Z -> (1 <= T < 2 ^ 32)%Z ->
  buildGrid N w = Some grid ->
  keys ≡ₚ cellKeys grid ->
  NoDup (hits (runThreads E grid keys T (mkSim w []))).
Proof.
  intros HN HT Hb Hperm.
  rewrite runThreads_tests; [| | done].
  2:{ rewrite Hperm, cellKeys_length. pose proof (buildGrid_size N w grid Hb). lia. }
  rewrite tests_hits. cbn [hits world app].
  apply NoDup_ListNoDup, List.NoDup_filter, NoDup_ListNoDup.
  by apply (NoDup_scanPairs N w).
Qed.

Lemma resolve_is_Some E N T w :
  (forall i, (i < N)%nat -> is_Some (keyOf w i)) -> is_Some (resolve E N T w).
Proof.
  intros Hk. unfold resolve.
  destruct (buildGrid_is_Some N w Hk) as [grid ->]. by eexists.
Qed.

End ScanFacts.

(** ** The grid scan in exact arithmetic *)

Section ExactGrid.

#[local] Existing Instance exact.

Local Open Scope R_scope.

Lemma Rtrunc_spec x :
  (0 <= x /\ (0 <= Exact.Rtrunc x)%Z
   /\ IZR (Exact.Rtrunc x) <= x < IZR (Exact.Rtrunc x) + 1)
  \/ (x < 0 /\ (Exact.Rtrunc x <= 0)%Z
      /\ IZR (Exact.Rtrunc x) - 1 < x <= IZR (Exact.Rtrunc x)).
Proof.
  destruct (Rle_lt_dec 0 x) as [Hx | Hx].
  - left. rewrite Rtrunc_nonneg by done. pose proof (Zfloor_bound x).
    split; [done |]. split; [| done]. apply Zfloor_lub. simpl. lra.
  - right. rewrite Rtrunc_neg by done. pose proof (Zceil_bound x) as [H1 H2].
    split; [done |]. split; [| done].
    assert (Zceil x < 1)%Z; [| lia]. apply lt_IZR. lra.
Qed.

Lemma quot_cells_adjacent (a b : Z) :
  ((0 <= a /\ 0 <= b /\ -10 <= b - a <= 10)
   \/ (a <= 0 /\ b <= 0 /\ -10 <= b - a <= 10)
   \/ (a <= 0 <= b /\ b - a < 10)
   \/ (b <= 0 <= a /\ a - b < 10))%Z ->
  (Z.abs (Z.quot b CELL_SIZE - Z.quot a CELL_SIZE) <= 1)%Z.
Proof. unfold CELL_SIZE. intros H. Z.to_euclidean_division_equations. lia. Qed.

(** Coordinates less than a cell width apart fall in the same or in
    neighbouring columns, on either side of zero. *)
Lemma trunc_cells_adjacent x1 x2 :
  -10 < x2 - x1 < 10 ->
  (Z.abs (Z.quot (Exact.Rtrunc x2) CELL_SIZE - Z.quot (Exact.Rtrunc x1) CELL_SIZE) <= 1)%Z.
Proof.
  intros Hd. apply quot_cells_adjacent.
  set (a := Exact.Rtrunc x1). set (b := Exact.Rtrunc x2).
  destruct (Rtrunc_spec x1) as [(H1 & Ha & Hb1) | (H1 & Ha & Hb1)];
    destruct (Rtrunc_spec x2) as [(H2 & Hb & Hb2) | (H2 & Hb & Hb2)];
    fold a in Ha, Hb1; fold b in Hb, Hb2.
  - left. split; [done |]. split; [done |].
    assert (b < a + 11)%Z by (apply lt_IZR; rewrite plus_IZR; lra).
    assert (a < b + 11)%Z by (apply lt_IZR; rewrite plus_IZR; lra). lia.
  - right. right. right. split; [lia |].
    assert (a - b < 10)%Z; [| done]. apply lt_IZR. rewrite minus_IZR. lra.
  - right. right. left. split; [lia |].
    assert (b - a < 10)%Z; [| done]. apply lt_IZR. rewrite minus_IZR. lra.
  - right. left. split; [done |]. split; [done |].
    assert (b < a + 11)%Z by (apply lt_IZR; rewrite plus_IZR; lra).
    assert (a < b + 11)%Z by (apply lt_IZR; rewrite plus_IZR; lra). lia.
Qed.

Lemma fits_int_range x : Exact.fits_int x -> in_int_range (Exact.Rtrunc x) = true.
Proof.
  unfold Exact.fits_int. intros [Hlo Hhi]. apply in_int_range_true.
  destruct (Rtrunc_spec x) as [(H1 & Ha & Hb1) | (H1 & Ha & Hb1)].
  - split; [unfold INT_MIN; lia |].
    assert (Exact.Rtrunc x < INT_MAX + 1)%Z; [| lia]. apply lt_IZR. rewrite plus_IZR. lra.
  - split; [| unfold INT_MAX; lia].
    assert (INT_MIN - 1 < Exact.Rtrunc x)%Z; [| lia]. apply lt_IZR. rewrite minus_IZR. lra.
Qed.

Lemma fits_int_bound x : -2147483648 < x < 2147483648 -> Exact.fits_int x.
Proof.
  unfold Exact.fits_int, INT_MIN, INT_MAX. rewrite minus_IZR, opp_IZR.
  change (2 ^ 31)%Z with 2147483648%Z. lra.
Qed.

Variables P V Ac Rd : list R.

Let w : World := exactWorld P V Ac Rd.

Lemma keyOf_exact i :
  Exact.fits_int (Exact.get P (i * DIMENSION + X)) ->
  Exact.fits_int (Exact.get P (i * DIMENSION + Y)) ->
  keyOf w i = Some (Z.quot (Exact.Rtrunc (Exact.get P (i * DIMENSION + X))) CELL_SIZE,
                    Z.quot (Exact.Rtrunc (Exact.get P (i * DIMENSION + Y))) CELL_SIZE).
Proof.
  intros Hx Hy. unfold keyOf, computeCellKey. subst w. rewrite !pos_exact. simpl.
  by rewrite !fits_int_range.
Qed.

(** The test of the code against the distance of the specification. *)
Lemma overlap_close i j :
  0 <= Exact.rsum Rd i j -> overlap w i j = true <-> Spec.close P Rd i j.
Proof.
  intros Hr. subst w. rewrite overlap_exact. unfold Spec.close.
  pose proof (d2_nonneg P i j) as Hd.
  pose proof (sqrt_sqrt _ Hd) as Hsq. pose proof (sqrt_pos (Exact.d2 P i j)) as Hs.
  split; intros H.
  - apply Rnot_le_lt. intros Hle.
    assert (Exact.rsum Rd i j * Exact.rsum Rd i j
            <= sqrt (Exact.d2 P i j) * sqrt (Exact.d2 P i j)) by nra.
    lra.
  - rewrite <- Hsq. nra.
Qed.

(** An overlapping pair whose radius sum is at most one cell width lies in
    the same or in neighbouring cells. *)
Lemma overlap_adjacent i j ki kj :
  Exact.rsum Rd i j <= IZR CELL_SIZE -> 0 <= Exact.rsum Rd i j ->
  overlap w i j = true ->
  keyOf w i = Some ki -> keyOf w j = Some kj ->
  adjacent ki kj.
Proof.
  intros Hcell Hr Hov Hki Hkj. subst w. apply overlap_exact in Hov.
  unfold keyOf, computeCellKey in Hki, Hkj. rewrite !pos_exact in Hki, Hkj.
  simpl in Hki, Hkj.
  destruct (in_int_range (Exact.Rtrunc (Exact.get P (i * DIMENSION + X)))); [| done].
  destruct (in_int_range (Exact.Rtrunc (Exact.get P (i * DIMENSION + Y)))); [| done].
  destruct (in_int_range (Exact.Rtrunc (Exact.get P (j * DIMENSION + X)))); [| done].
  destruct (in_int_range (Exact.Rtrunc (Exact.get P (j * DIMENSION + Y)))); [| done].
  simpl in Hki, Hkj. injection Hki as <-. injection Hkj as <-.
  unfold CELL_SIZE in Hcell. simpl in Hcell.
  unfold Exact.d2 in Hov.
  assert (Hdx : -10 < Exact.dx P i j < 10) by (split; nra).
  assert (Hdy : -10 < Exact.dy P i j < 10) by (split; nra).
  unfold adjacent. simpl. split; by apply trunc_cells_adjacent.
Qed.

End ExactGrid.

Lemma elem_of_allPairs N i j : (i, j) ∈ Spec.allPairs N <-> (i < j < N)%nat.
Proof.
  unfold Spec.allPairs. rewrite list_elem_of_bind. split.
  - intros (a & Hin & Ha%elem_of_seq). apply list_elem_of_bind in Hin as (b & Hin & Hb%elem_of_seq).
    apply list_elem_of_singleton in Hin as [= -> ->]. lia.
  - intros Hij. exists i. split; [| apply elem_of_seq; lia].
    apply list_elem_of_bind. exists j. split; [by apply list_elem_of_singleton |].
    apply elem_of_seq. lia.
Qed.

Lemma elem_of_bruteForce N P Rd i j :
  (i, j) ∈ Spec.bruteForce N P Rd <-> (i < j < N)%nat /\ Spec.close P Rd i j.
Proof.
  unfold Spec.bruteForce, Spec.close.
  rewrite list_elem_of_In, List.filter_In, <- list_elem_of_In, elem_of_allPairs. simpl.
  destruct (Rlt_dec _ _); split; intros [? ?]; done.
Qed.



(** ** The two-particle scenario *)

Lemma resolve_tests {A : Arith} (E : num) (N : nat) (T : Z) (w : World) :
  (Z.of_nat N <= INT_MAX)%Z -> (1 <= T < 2 ^ 32)%Z ->
  resolve E N T w
  = grid ← buildGrid N w;
    Some (tests E (scanPairs grid (cellKeys grid)) (mkSim w [])).
Proof.
  intros HN HT. unfold resolve.
  destruct (buildGrid N w) as [grid |] eqn:Hb; [| done]. simpl.
  rewrite runThreads_tests; [done | | done].
  rewrite cellKeys_length. pose proof (buildGrid_size N w grid Hb). lia.
Qed.

Section Scenario.

#[local] Existing Instance exact.

Local Open Scope R_scope.

Let w0 : World := exactWorld [0; 0; 1.5; 0] [1; 0; -1; 0] [0; 1000; 0; 1000] [1; 1].

Lemma scenario_integrate : integrate (Some 0) w0 = w0.
Proof.
  unfold integrate, cblas_daxpy, w0, exactWorld, Exact.fin. simpl.
  f_equal; repeat (f_equal; try lra).
Qed.

Lemma Rtrunc_0 : Exact.Rtrunc 0 = 0%Z.
Proof. rewrite Rtrunc_nonneg by lra. apply (ZfloorZ 0). Qed.

Lemma Rtrunc_1_5 : Exact.Rtrunc 1.5 = 1%Z.
Proof. rewrite Rtrunc_nonneg by lra. apply Zfloor_eq. lra. Qed.

Lemma scenario_grid :
  buildGrid 2 w0 = Some (gridInsert (gridInsert ∅ (0, 0)%Z 0) (0, 0)%Z 1).
Proof.
  assert (H0 : keyOf w0 0 = Some (0, 0)%Z).
  { unfold w0. rewrite keyOf_exact by (apply fits_int_bound; unfold Exact.get; simpl; lra).
    unfold Exact.get. simpl. by rewrite Rtrunc_0. }
  assert (H1 : keyOf w0 1 = Some (0, 0)%Z).
  { unfold w0. rewrite keyOf_exact by (apply fits_int_bound; unfold Exact.get; simpl; lra).
    unfold Exact.get. simpl. by rewrite Rtrunc_0, Rtrunc_1_5. }
  rewrite !buildGrid_S. change (buildGrid 0 w0) with (Some (∅ : gmap CellKey (list nat))).
  simpl. rewrite H0. simpl. rewrite H1. done.
Qed.

Lemma scenario_pairs :
  let grid := gridInsert (gridInsert ∅ (0, 0)%Z 0) (0, 0)%Z 1 in
  scanPairs grid (cellKeys grid) = [(0, 1)]%nat.
Proof. vm_compute. reflexivity. Qed.

Lemma scenario_collide :
  collide (Some 0) 0 1 (mkSim w0 [])
  = mkSim (exactWorld [0; 0; 1.5; 0] [-1; 0; 1; 0] [0; 1000; 0; 1000] [1; 1]) [(0, 1)]%nat.
Proof.
  assert (Hd2 : Exact.d2 [0; 0; 1.5; 0] 0 1 = 1.5 * 1.5).
  { unfold Exact.d2, Exact.dx, Exact.dy, Exact.get. simpl. lra. }
  assert (Hsqrt : sqrt (Exact.d2 [0; 0; 1.5; 0] 0 1) = 1.5).
  { rewrite Hd2. apply sqrt_square. lra. }
  assert (Hov : overlap w0 0 1 = true).
  { apply overlap_exact. rewrite Hd2. unfold Exact.rsum, Exact.get. simpl. lra. }
  assert (Hn : normal w0 0 1 = (Some 1, Some 0)).
  { unfold w0. rewrite normal_exact_apart by (rewrite Hd2; lra). rewrite Hsqrt.
    unfold Exact.dx, Exact.dy, Exact.get. simpl. f_equal; f_equal; lra. }
  unfold collide. cbn [world hits]. rewrite Hov. f_equal.
  unfold applyImpulse. rewrite Hn. unfold w0 at 1 2 3 4 5. rewrite relVel_exact, !vel_exact.
  unfold Exact.along, Exact.get, setVel, w0, exactWorld, Exact.fin. simpl.
  f_equal. repeat (f_equal; try lra).
Qed.

End Scenario.

(** C3: two particles of radius 1 at [(0, 0)] and [(1.5, 0)] with
    velocities [(1, 0)] and [(-1, 0)], [ENTROPY = 0], [dt = 0].  After the
    integrator and one resolver pass, for any number of threads: the squared
    distance is 2.25, the squared radius sum 4, the pair [(0, 1)] is the one
    collision reported, and the velocities are [(-1, 0)] and [(1, 0)] -- in
    exact arithmetic and bit for bit in binary32 / binary64. *)
Theorem two_particle_scenario (T : Z) :
  (1 <= T < 2 ^ 32)%Z ->
  let w := exactWorld [0; 0; 1.5; 0]%R [1; 0; -1; 0]%R [0; 1000; 0; 1000]%R [1; 1]%R in
  let wf := ieeeWorld [0; 0; 1.5; 0]%Q [1; 0; -1; 0]%Q [0; 1000; 0; 1000]%Q [1; 1]%Q in
  (@dist2 exact w 0 1 = Some 2.25%R
   /\ @fmul exact (@radiusSum exact w 0 1) (@radiusSum exact w 0 1) = Some 4%R
   /\ @resolve exact (Some 0%R) 2 T (@integrate exact (Some 0%R) w)
      = Some (mkSim (exactWorld [0; 0; 1.5; 0]%R [-1; 0; 1; 0]%R [0; 1000; 0; 1000]%R [1; 1]%R)
                    [(0, 1)]%nat))
  /\ (@dist2 ieee wf 0 1 = IEEE.lit32 2.25
      /\ @fmul ieee (@radiusSum ieee wf 0 1) (@radiusSum ieee wf 0 1) = IEEE.lit32 4
      /\ (fun s => (velocities (world s), hits s))
           <$> @resolve ieee (IEEE.lit32 0) 2 T (@integrate ieee (IEEE.lit32 0) wf)
         = Some (IEEE.dbl <$> [-1; 0; 1; 0]%Q, [(0, 1)]%nat)).
Proof.
  intros HT w wf.
  assert (HN : (Z.of_nat 2 <= INT_MAX)%Z) by (unfold INT_MAX; lia).
  split; [split; [| split] | split; [| split]].
  - subst w. rewrite dist2_exact. f_equal.
    unfold Exact.d2, Exact.dx, Exact.dy, Exact.get. simpl. lra.
  - subst w. rewrite radiusSum_exact. unfold Exact.rsum, Exact.get. simpl.
    f_equal; lra.
  - subst w. rewrite scenario_integrate, resolve_tests by done.
    rewrite scenario_grid. cbn [mbind option_bind]. rewrite scenario_pairs.
    cbn [tests foldl fst snd]. by rewrite scenario_collide.
  - vm_compute. reflexivity.
  - vm_compute. reflexivity.
  - rewrite resolve_tests by done. vm_compute. reflexivity.
Qed.

Lemma two_particle_scenario_witness :
  (1 <= 4 < 2 ^ 32)%Z
  /\ @resolve exact (Some 0%R) 2 4
       (@integrate exact (Some 0%R)
          (exactWorld [0; 0; 1.5; 0]%R [1; 0; -1; 0]%R [0; 1000; 0; 1000]%R [1; 1]%R))
     = Some (mkSim (exactWorld [0; 0; 1.5; 0]%R [-1; 0; 1; 0]%R [0; 1000; 0; 1000]%R [1; 1]%R)
                   [(0, 1)]%nat).
Proof.
  assert (H4 : (1 <= 4 < 2 ^ 32)%Z) by lia.
  split; [exact H4 |].
  exact (proj2 (proj2 (proj1 (two_particle_scenario 4 H4)))).
Defined.

(** ** The same scenarios under binary32 / binary64

    The theorems above on relative velocity, coinciding centres and the
    grid scan are stated in exact arithmetic.  The examples below run the
    embedding under machine arithmetic on the inputs used there. *)

(** Under binary32 too, a finite number minus itself is [+0], so for any
    two particles whose (finite) centres coincide the guard fires: the
    divisor becomes [0.1f], which is not zero, and the separation
    [(radiusSum, 0)]. *)
Lemma SFsub_diag (x : spec_float) :
  IEEE.is_finite x = true -> SFsub IEEE.prec32 IEEE.emax32 x x = S754_zero false.
Proof.
  destruct x as [s | s | | s m e]; try done; intros _.
  - by destruct s.
  - unfold SFsub. rewrite Z.min_id. unfold shl_align. by rewrite !Z.sub_diag.
Qed.

Lemma coincident_guard_ieee (w : @World ieee) (i j : nat) :
  @to_float ieee (pos w i X) = @to_float ieee (pos w j X) ->
  @to_float ieee (pos w i Y) = @to_float ieee (pos w j Y) ->
  IEEE.is_finite (@to_float ieee (pos w i X)) = true ->
  IEEE.is_finite (@to_float ieee (pos w i Y)) = true ->
  @guarded ieee w i j = (IEEE.lit32 0.1, @radiusSum ieee w i j, IEEE.lit32 0)
  /\ @feqb ieee (IEEE.lit32 0.1) (IEEE.lit32 0) = false.
Proof.
  intros Hx Hy Hfx Hfy. split; [| by vm_compute].
  unfold guarded, dist2, separation. rewrite <- Hx, <- Hy.
  change (@fsub ieee) with (SFsub IEEE.prec32 IEEE.emax32).
  by rewrite !SFsub_diag.
Qed.

(** Elastic case: relative velocity 2 along the normal before, -2 after. *)
Example elastic_pair_ieee :
  let w := ieeeWorld [0; 0; 1.5; 0]%Q [1; 0; -1; 0]%Q [0; 1000; 0; 1000]%Q [1; 1]%Q in
  let s' := @collide ieee (IEEE.lit32 0) 0 1 (mkSim w []) in
  @normal ieee w 0 1 = (IEEE.lit32 1, IEEE.lit32 0)
  /\ @relVel ieee w 0 1 (@normal ieee w 0 1) = IEEE.lit32 2
  /\ @relVel ieee (world s') 0 1 (@normal ieee (world s') 0 1) = IEEE.lit32 (-2).
Proof. intros w s'. split; [| split]; vm_compute; reflexivity. Qed.

(** Glancing pair with [ENTROPY = 0.5]: relative velocity along the normal
    is zero before and after. *)
Example glancing_pair_ieee :
  let w := ieeeWorld [0; 0; 1.5; 0]%Q [1; 2; 1; -3]%Q [0; 1000; 0; 1000]%Q [1; 1]%Q in
  let s' := @collide ieee (IEEE.lit32 0.5) 0 1 (mkSim w []) in
  hits s' = [(0, 1)]
  /\ @relVel ieee w 0 1 (@normal ieee w 0 1) = IEEE.lit32 0
  /\ @relVel ieee (world s') 0 1 (@normal ieee (world s') 0 1) = IEEE.lit32 0.
Proof. intros w s'. split; [| split]; vm_compute; reflexivity. Qed.

(** Coinciding centres, radius 5, [ENTROPY = 0.01f]: the divisor is [0.1f],
    the normal [(100, 0)], and the four velocity components are finite. *)
Example coincident_centres_ieee :
  let w := ieeeWorld [3; 4; 3; 4]%Q [1; 2; -3; 0.5]%Q [0; 1000; 0; 1000]%Q [5; 5]%Q in
  let s' := @collide ieee (IEEE.lit32 0.01) 0 1 (mkSim w []) in
  @guarded ieee w 0 1 = (IEEE.lit32 0.1, IEEE.lit32 10, IEEE.lit32 0)
  /\ @feqb ieee (IEEE.lit32 0.1) (IEEE.lit32 0) = false
  /\ @normal ieee w 0 1 = (IEEE.lit32 100, IEEE.lit32 0)
  /\ hits s' = [(0, 1)]
  /\ IEEE.is_finite <$> velocities (world s') = [true; true; true; true].
Proof. intros w s'. split; [| split; [| split; [| split]]]; vm_compute; reflexivity. Qed.

(** Five particles of radius 5 (radius sum equal to the cell size), one of
    them left of zero: the scan with four threads reports the pairs an
    all-pairs run of the same test reports. *)
Example grid_scan_ieee :
  let w := ieeeWorld [5; 5; -3; 5; 12; 5; 25; 25; 12.5; 5.2]%Q
                     [1; 0; -1; 0; 0; 0; 2; 2; 0; 1]%Q
                     [0; 1000; 0; 1000; 0; 1000; 0; 1000; 0; 1000]%Q [5; 5; 5; 5; 5]%Q in
  @keyOf ieee w <$> [0; 1; 2; 3; 4]
    = [Some (0, 0); Some (0, 0); Some (1, 0); Some (2, 2); Some (1, 0)]%Z
  /\ hits <$> @resolve ieee (IEEE.lit32 0.01) 5 4 w = Some [(0, 1); (0, 2); (0, 4); (2, 4)]
  /\ List.filter (fun p => @overlap ieee w p.1 p.2) (Spec.allPairs 5)
     = [(0, 1); (0, 2); (0, 4); (2, 4)].
Proof. intros w. split; [| split]; vm_compute; reflexivity. Qed.

(** ** More on the grid rebuild, main.cpp:118-129 *)

Section Buckets.

Context {A : Arith}.

Lemma buildGrid_None_S n w :
  buildGrid (S n) w = None <-> buildGrid n w = None \/ keyOf w n = None.
Proof.
  rewrite buildGrid_S. destruct (buildGrid n w) as [g |]; simpl.
  - destruct (keyOf w n); simpl.
    + split; [done | by intros [H | H]].
    + split; [by right | done].
  - split; [by left | done].
Qed.

(** The rebuild puts every particle into the bucket of its own cell and
    nowhere else: a bucket is never empty, lists its particles in
    increasing order, and holds exactly the particles whose key is the
    bucket's key. *)
Theorem buildGrid_buckets (N : nat) (w : World) (grid : gmap CellKey (list nat)) :
  buildGrid N w = Some grid ->
  (forall i, (i < N)%nat ->
     exists k l, keyOf w i = Some k /\ grid !! k = Some l /\ i ∈ l)
  /\ (forall k l, grid !! k = Some l ->
        l <> [] /\ StronglySorted lt l
        /\ forall i, i ∈ l <-> (i < N)%nat /\ keyOf w i = Some k).
Proof.
  intros Hg. split.
  - intros i Hi. destruct (buildGrid_keys N w grid i Hg Hi) as [k Hk].
    exists k, (bucket w N k). split; [done |].
    assert (Hin : i ∈ bucket w N k) by (by apply elem_of_bucket).
    split; [by eapply buildGrid_bucket_elem | done].
  - intros k l Hl. pose proof (buildGrid_lookup N w grid k Hg) as E.
    rewrite Hl in E. destruct (bucket w N k) as [| a l'] eqn:Hb; [done |].
    injection E as ->. split; [done |]. rewrite <- Hb.
    split; [apply bucket_sorted |]. intros i. rewrite elem_of_bucket. tauto.
Qed.

(** The rebuild is undefined exactly when the cell key of some particle
    is: when [static_cast<int>] of one of its coordinates is. *)
Theorem buildGrid_undefined_iff (N : nat) (w : World) :
  buildGrid N w = None <-> exists i, (i < N)%nat /\ keyOf w i = None.
Proof.
  induction N as [| n IH].
  - split; [done | intros (i & Hi & _); lia].
  - rewrite buildGrid_None_S, IH. split.
    + intros [(i & Hi & Hk) | Hk]; [exists i | exists n]; split; done || lia.
    + intros (i & Hi & Hk). destruct (decide (i = n)) as [-> | Hne]; [by right |].
      left. exists i. split; [lia | done].
Qed.

(** [CellKeys] lists every occupied cell once: it has no duplicates, at
    most one entry per particle, and a key is listed exactly when some
    particle lies in that cell. *)
Theorem cellKeys_occupied (N : nat) (w : World) (grid : gmap CellKey (list nat)) :
  buildGrid N w = Some grid ->
  NoDup (cellKeys grid)
  /\ (length (cellKeys grid) <= N)%nat
  /\ forall k, k ∈ cellKeys grid <-> exists i, (i < N)%nat /\ keyOf w i = Some k.
Proof.
  intros Hg. split; [apply NoDup_fst_map_to_list |].
  split; [rewrite cellKeys_length; by eapply buildGrid_size |].
  intros k. rewrite elem_of_cellKeys, (buildGrid_lookup N w grid k Hg). split.
  - destruct (bucket w N k) as [| i l] eqn:Hb; [by intros ?%is_Some_None |]. intros _.
    assert (Hin : i ∈ bucket w N k) by (rewrite Hb; left).
    apply elem_of_bucket in Hin. exists i. tauto.
  - intros (i & Hi & Hk).
    assert (Hin : i ∈ bucket w N k) by (by apply elem_of_bucket).
    destruct (bucket w N k); [by apply elem_of_nil in Hin | done].
Qed.

End Buckets.

Lemma buildGrid_buckets_witness :
  let w := exactWorld [0; 0; 1.5; 0]%R [1; 0; -1; 0]%R [0; 1000; 0; 1000]%R [1; 1]%R in
  let grid := gridInsert (gridInsert ∅ (0, 0)%Z 0) (0, 0)%Z 1 in
  @buildGrid exact 2 w = Some grid
  /\ (forall i, (i < 2)%nat ->
        exists k l, @keyOf exact w i = Some k /\ grid !! k = Some l /\ i ∈ l)
  /\ (forall k l, grid !! k = Some l ->
        l <> [] /\ StronglySorted lt l
        /\ forall i, i ∈ l <-> (i < 2)%nat /\ @keyOf exact w i = Some k).
Proof.
  intros w grid. split; [apply scenario_grid |].
  apply (@buildGrid_buckets exact 2 w grid), scenario_grid.
Defined.

Lemma cellKeys_occupied_witness :
  let w := exactWorld [0; 0; 1.5; 0]%R [1; 0; -1; 0]%R [0; 1000; 0; 1000]%R [1; 1]%R in
  let grid := gridInsert (gridInsert ∅ (0, 0)%Z 0) (0, 0)%Z 1 in
  @buildGrid exact 2 w = Some grid
  /\ NoDup (cellKeys grid)
  /\ (length (cellKeys grid) <= 2)%nat
  /\ forall k, k ∈ cellKeys grid <-> exists i, (i < 2)%nat /\ @keyOf exact w i = Some k.
Proof.
  intros w grid. split; [apply scenario_grid |].
  apply (@cellKeys_occupied exact 2 w grid), scenario_grid.
Defined.

(** ** More on the threads, main.cpp:57-60, 130-133 and 236-247 *)

Section Threads.

Context {A : Arith}.

Lemma runThreads_ranges E grid (keys : list CellKey) (T : Z) s :
  runThreads E grid keys T s
  = tests E (threadRanges (to_i32 (Z.of_nat (length keys))) T
               ≫= fun r => rangePairs grid keys r.1 r.2) s.
Proof.
  unfold runThreads. rewrite tests_bind. apply foldl_pointwise.
  intros b [a e]. apply processCells_tests.
Qed.

Lemma scanPairs_cells E grid (keys : list CellKey) s :
  tests E (scanPairs grid keys) s = foldl (fun s key => processCell E grid key s) s keys.
Proof.
  unfold scanPairs. rewrite tests_bind. apply foldl_pointwise.
  intros b key. symmetry. apply processCell_tests.
Qed.

Lemma processCells_empty E grid (keys : list CellKey) (a b : Z) s :
  (b <= a)%Z -> processCells E grid keys a b s = s.
Proof.
  intros H. unfold processCells, seqZ.
  replace (Z.to_nat (b - a)) with 0%nat by lia. done.
Qed.

(** Whatever [hardware_concurrency()] reports, zero included, the threads
    run one after the other do what a single loop over [CellKeys] does:
    every listed cell is processed once, in list order.  In particular the
    outcome of this sequential reading does not depend on the number of
    threads. *)
Theorem runThreads_thread_count (E : num) grid (keys : list CellKey) (hc : Z) s :
  (Z.of_nat (length keys) <= INT_MAX)%Z -> (0 <= hc < 2 ^ 32)%Z ->
  runThreads E grid keys (numThreads hc) s
  = foldl (fun s key => processCell E grid key s) s keys.
Proof.
  intros Hk Hhc. rewrite runThreads_tests; [apply scanPairs_cells | done |].
  unfold numThreads. destruct (Z.eqb_spec hc 0); lia.
Qed.

(** With more threads than cells, thread [t] gets the single cell [t]
    while cells last, and every later thread gets the empty range
    [(M, M)], on which [processCells] does nothing. *)
Theorem threadRanges_surplus_threads (M T : Z) (t : nat) :
  (0 <= M <= INT_MAX)%Z -> (M < T < 2 ^ 32)%Z -> (Z.of_nat t < T)%Z ->
  threadRanges M T !! t
  = Some (if (Z.of_nat t <? M)%Z then (Z.of_nat t, Z.of_nat t + 1)%Z else (M, M))
  /\ forall (E : num) grid (keys : list CellKey) s,
       (M <= Z.of_nat t)%Z -> processCells E grid keys M M s = s.
Proof.
  intros HM HT Ht. split; [| intros; apply processCells_empty; lia].
  rewrite (threadRanges_chunks M T HM) by lia.
  rewrite list_lookup_fmap, lookup_seqZ_lt by lia. simpl.
  unfold Spec.chunkStart. rewrite Z.div_small, Z.mod_small by lia.
  destruct (Z.ltb_spec (Z.of_nat t) M); apply (f_equal Some), pair_equal_spec; lia.
Qed.

(** In every arithmetic, the IEEE one included, the pass enters the
    collision branch for exactly the pairs [i < j] of particles that lie in
    the same or in adjacent cells and pass the test
    [dist2 < radiusSum * radiusSum], and for each of them once.  This holds
    for every order in which the hash map lists its keys and for every
    number of threads. *)
Theorem scan_reports_overlaps_of_adjacent_cells (E : num) (N : nat) (T : Z) (w : World)
    (grid : gmap CellKey (list nat)) (keys : list CellKey) :
  (Z.of_nat N <= INT_MAX)%Z -> (1 <= T < 2 ^ 32)%Z ->
  buildGrid N w = Some grid ->
  keys ≡ₚ cellKeys grid ->
  let s' := runThreads E grid keys T (mkSim w []) in
  NoDup (hits s')
  /\ forall i j, (i, j) ∈ hits s' <->
       (i < j < N)%nat
       /\ (exists ki kj, keyOf w i = Some ki /\ keyOf w j = Some kj /\ adjacent ki kj)
       /\ overlap w i j = true.
Proof.
  intros HN HT Hg Hp s'. split.
  - by eapply runThreads_hits_NoDup.
  - by eapply runThreads_hits.
Qed.

(** *** A particle that takes part in no collision *)

Lemma applyImpulse_vel_other E w i j k c :
  k <> i -> k <> j -> (c < DIMENSION)%nat ->
  vel (applyImpulse E w i j) k c = vel w k c.
Proof.
  intros Hi Hj Hc. unfold applyImpulse.
  rewrite !vel_setVel_ne; [done | | | |]; unfold DIMENSION, X, Y in *; lia.
Qed.

Lemma collide_vel_other E i j s k c :
  (c < DIMENSION)%nat ->
  (overlap (world s) i j = true -> k <> i /\ k <> j) ->
  vel (world (collide E i j s)) k c = vel (world s) k c.
Proof.
  intros Hc H. unfold collide. destruct (overlap (world s) i j); [| done].
  destruct H as [Hi Hj]; [done |]. simpl. by apply applyImpulse_vel_other.
Qed.

Lemma tests_vel_other E (l : list (nat * nat)) s k c :
  (c < DIMENSION)%nat ->
  (forall p, p ∈ l -> overlap (world s) p.1 p.2 = true -> k <> p.1 /\ k <> p.2) ->
  vel (world (tests E l s)) k c = vel (world s) k c.
Proof.
  intros Hc. revert s. induction l as [| p l IH]; intros s H; [done |].
  change (tests E (p :: l) s) with (tests E l (collide E p.1 p.2 s)).
  rewrite IH.
  - apply collide_vel_other; [done |]. apply H. left.
  - intros q Hq Ho. apply H; [by right |].
    rewrite <- Ho. apply overlap_frame. symmetry. apply collide_frame.
Qed.

(** A particle that is in none of the pairs for which the collision branch
    is entered leaves the pass with the velocity it came with, whatever
    the grid, the key list and the number of threads. *)
Theorem untouched_particle_keeps_velocity (E : num) (grid : gmap CellKey (list nat))
    (keys : list CellKey) (T : Z) (w : World) (k c : nat) :
  (c < DIMENSION)%nat ->
  let s' := runThreads E grid keys T (mkSim w []) in
  (forall p, p ∈ hits s' -> k <> p.1 /\ k <> p.2) ->
  vel (world s') k c = vel w k c.
Proof.
  intros Hc s' H. unfold s' in *. rewrite runThreads_ranges in *.
  rewrite tests_vel_other; [done | done |]. simpl.
  intros p Hp Ho. apply H. rewrite tests_hits. simpl.
  apply list_elem_of_In, List.filter_In. split; [by apply list_elem_of_In | done].
Qed.

End Threads.

Lemma runThreads_thread_count_witness :
  let w := exactWorld [0; 0; 1.5; 0]%R [1; 0; -1; 0]%R [0; 1000; 0; 1000]%R [1; 1]%R in
  let grid := gridInsert (gridInsert ∅ (0, 0)%Z 0) (0, 0)%Z 1 in
  ((Z.of_nat (length [(0, 0)%Z]) <= INT_MAX)%Z /\ (0 <= 0 < 2 ^ 32)%Z)
  /\ @runThreads exact (Some 0%R) grid [(0, 0)%Z] (numThreads 0) (mkSim w [])
     = foldl (fun s key => @processCell exact (Some 0%R) grid key s) (mkSim w []) [(0, 0)%Z].
Proof.
  intros w grid.
  assert (H1 : (Z.of_nat (length [(0, 0)%Z]) <= INT_MAX)%Z) by (unfold INT_MAX; simpl; lia).
  assert (H2 : (0 <= 0 < 2 ^ 32)%Z) by lia.
  split; [by split |].
  apply (@runThreads_thread_count exact (Some 0%R) grid [(0, 0)%Z] 0 (mkSim w []) H1 H2).
Defined.

Lemma threadRanges_surplus_threads_witness :
  ((0 <= 3 <= INT_MAX)%Z /\ (3 < 8 < 2 ^ 32)%Z /\ (Z.of_nat 5 < 8)%Z)
  /\ threadRanges 3 8 !! 5%nat = Some (3, 3)%Z.
Proof.
  assert (H1 : (0 <= 3 <= INT_MAX)%Z) by (unfold INT_MAX; lia).
  assert (H2 : (3 < 8 < 2 ^ 32)%Z) by lia.
  assert (H3 : (Z.of_nat 5 < 8)%Z) by lia.
  split; [by repeat split |].
  apply (proj1 (@threadRanges_surplus_threads exact 3 8 5 H1 H2 H3)).
Defined.

Lemma scan_reports_overlaps_of_adjacent_cells_witness :
  let w := exactWorld [0; 0; 1.5; 0]%R [1; 0; -1; 0]%R [0; 1000; 0; 1000]%R [1; 1]%R in
  let grid := gridInsert (gridInsert ∅ (0, 0)%Z 0) (0, 0)%Z 1 in
  ((Z.of_nat 2 <= INT_MAX)%Z /\ (1 <= 4 < 2 ^ 32)%Z
   /\ @buildGrid exact 2 w = Some grid /\ cellKeys grid ≡ₚ cellKeys grid)
  /\ NoDup (hits (@runThreads exact (Some 0%R) grid (cellKeys grid) 4 (mkSim w []))).
Proof.
  intros w grid.
  assert (H1 : (Z.of_nat 2 <= INT_MAX)%Z) by (unfold INT_MAX; lia).
  assert (H2 : (1 <= 4 < 2 ^ 32)%Z) by lia.
  split; [repeat split; try done; apply scenario_grid |].
  apply (proj1 (@scan_reports_overlaps_of_adjacent_cells exact (Some 0%R) 2 4 w grid
                  (cellKeys grid) H1 H2 scenario_grid (reflexivity _))).
Defined.

Lemma untouched_particle_keeps_velocity_witness :
  let w := ieeeWorld [0; 0; 1.5; 0; 50; 50]%Q [1; 0; -1; 0; 3; 4]%Q
                     [0; 1000; 0; 1000; 0; 1000]%Q [1; 1; 1]%Q in
  let grid : gmap CellKey (list nat) :=
    gridInsert (gridInsert (gridInsert ∅ (0, 0)%Z 0) (0, 0)%Z 1) (5, 5)%Z 2 in
  let s' := @runThreads ieee (IEEE.lit32 0.01) grid (cellKeys grid) 4 (mkSim w []) in
  ((1 < DIMENSION)%nat
   /\ hits s' = [(0, 1)]%nat
   /\ forall p, p ∈ hits s' -> 2%nat <> p.1 /\ 2%nat <> p.2)
  /\ @vel ieee (world s') 2 1 = @vel ieee w 2 1.
Proof.
  intros w grid s'.
  assert (H1 : (1 < DIMENSION)%nat) by (unfold DIMENSION; lia).
  assert (H2 : hits s' = [(0, 1)]%nat) by (vm_compute; reflexivity).
  assert (H3 : forall p, p ∈ hits s' -> 2%nat <> p.1 /\ 2%nat <> p.2).
  { intros p Hp. rewrite H2 in Hp. apply list_elem_of_singleton in Hp as ->. by split. }
  split; [exact (conj H1 (conj H2 H3)) |].
  apply (@untouched_particle_keeps_velocity ieee (IEEE.lit32 0.01) grid (cellKeys grid) 4 w 2 1
           H1 H3).
Defined.

(** ** The resolver in exact arithmetic: what a pass does to the velocities *)

Section ExactPass.

#[local] Existing Instance exact.

Local Open Scope R_scope.

Lemma fin_insert (V : list R) k v :
  <[k := Some v]> (Exact.fin V) = Exact.fin (<[k := v]> V).
Proof. unfold Exact.fin. by rewrite list_fmap_insert. Qed.

Lemma get_insert_eq (V : list R) k v :
  (k < length V)%nat -> Exact.get (<[k := v]> V) k = v.
Proof. intros H. unfold Exact.get. by rewrite list_lookup_insert_eq. Qed.

Lemma get_insert_ne (V : list R) k k' v :
  k <> k' -> Exact.get (<[k := v]> V) k' = Exact.get V k'.
Proof. intros H. unfold Exact.get. by rewrite list_lookup_insert_ne. Qed.

(** The velocity buffer after one resolution, entry by entry. *)
Lemma applyImpulse_exact_world P V Ac Rd (e : R) i j nx ny :
  let w := exactWorld P V Ac Rd in
  normal w i j = (Some nx, Some ny) ->
  let q := Exact.along V i j nx ny in
  applyImpulse (Some e) w i j
  = exactWorld P
      (<[(j * DIMENSION + Y)%nat := Exact.get V (j * DIMENSION + Y) + q * ny * (1 - e)]>
      (<[(j * DIMENSION + X)%nat := Exact.get V (j * DIMENSION + X) + q * nx * (1 - e)]>
      (<[(i * DIMENSION + Y)%nat := Exact.get V (i * DIMENSION + Y) - q * ny * (1 - e)]>
      (<[(i * DIMENSION + X)%nat := Exact.get V (i * DIMENSION + X) - q * nx * (1 - e)]> V))))
      Ac Rd.
Proof.
  intros w Hn q. unfold applyImpulse. rewrite Hn. subst w.
  rewrite relVel_exact, !vel_exact.
  unfold setVel, exactWorld. cbn [positions velocities accelerations radius fst snd].
  f_equal. rewrite <- !fin_insert. reflexivity.
Qed.

Local Ltac idx := unfold DIMENSION, X, Y in *; lia.

(** One pair test, as a change of the velocity buffer: [i] loses
    [(qx, qy)], [j] gains it, nothing else is written. *)
Lemma collide_exact_step P V Ac Rd log (e : R) i j :
  i <> j ->
  (i * DIMENSION + Y < length V)%nat ->
  (j * DIMENSION + Y < length V)%nat ->
  exists V' qx qy log',
    collide (Some e) i j (mkSim (exactWorld P V Ac Rd) log)
    = mkSim (exactWorld P V' Ac Rd) log'
    /\ length V' = length V
    /\ Exact.get V' (i * DIMENSION + X) = Exact.get V (i * DIMENSION + X) - qx
    /\ Exact.get V' (i * DIMENSION + Y) = Exact.get V (i * DIMENSION + Y) - qy
    /\ Exact.get V' (j * DIMENSION + X) = Exact.get V (j * DIMENSION + X) + qx
    /\ Exact.get V' (j * DIMENSION + Y) = Exact.get V (j * DIMENSION + Y) + qy
    /\ (forall k c, k <> i -> k <> j -> (c < DIMENSION)%nat ->
          Exact.get V' (k * DIMENSION + c) = Exact.get V (k * DIMENSION + c))
    /\ if overlap (exactWorld P V Ac Rd) i j then
         forall nx ny, normal (exactWorld P V Ac Rd) i j = (Some nx, Some ny) ->
           qx = Exact.along V i j nx ny * nx * (1 - e)
           /\ qy = Exact.along V i j nx ny * ny * (1 - e)
       else qx = 0 /\ qy = 0.
Proof.
  intros Hij Hi Hj. unfold collide. cbn [world hits].
  destruct (overlap (exactWorld P V Ac Rd) i j).
  - destruct (normal_exact_finite P V Ac Rd i j) as (nx & ny & Hn).
    rewrite (applyImpulse_exact_world P V Ac Rd e i j nx ny Hn).
    eexists _, (Exact.along V i j nx ny * nx * (1 - e)),
      (Exact.along V i j nx ny * ny * (1 - e)), _.
    split; [reflexivity |]. split; [by rewrite !length_insert |].
    split; [rewrite ?get_insert_ne by idx;
            rewrite get_insert_eq by (rewrite ?length_insert; idx); done |].
    split; [rewrite ?get_insert_ne by idx;
            rewrite get_insert_eq by (rewrite ?length_insert; idx); done |].
    split; [rewrite ?get_insert_ne by idx;
            rewrite get_insert_eq by (rewrite ?length_insert; idx); done |].
    split; [rewrite get_insert_eq by (rewrite ?length_insert; idx); done |].
    split; [intros k c Hki Hkj Hc; rewrite !get_insert_ne by idx; done |].
    intros nx' ny' Hn'. rewrite Hn in Hn'. by injection Hn' as <- <-.
  - exists V, 0, 0, log. repeat split; lra.
Qed.

(** *** Sums over the particles *)

Lemma sum_agree (f g : nat -> R) (l : list nat) :
  (forall k, k ∈ l -> f k = g k) ->
  foldr Rplus 0 (g <$> l) = foldr Rplus 0 (f <$> l).
Proof.
  induction l as [| a l IH]; intros H; [done |]. rewrite !fmap_cons. cbn [foldr].
  rewrite IH, (H a); [done | left |]. intros k Hk. apply H. by right.
Qed.

Lemma sum_change (f g : nat -> R) (l : list nat) (i : nat) :
  NoDup l -> i ∈ l -> (forall k, k ∈ l -> k <> i -> f k = g k) ->
  foldr Rplus 0 (g <$> l) = foldr Rplus 0 (f <$> l) + (g i - f i).
Proof.
  induction l as [| a l IH]; intros Hnd Hi H; [by apply elem_of_nil in Hi |].
  apply NoDup_cons in Hnd as [Ha Hnd]. rewrite !fmap_cons. cbn [foldr].
  apply elem_of_cons in Hi as [-> | Hi].
  - rewrite (sum_agree f g l); [lra |].
    intros k Hk. apply H; [by right |]. by intros ->.
  - rewrite IH; [| done | done | intros k Hk; apply H; by right].
    rewrite <- (H a); [lra | left |]. by intros ->.
Qed.

Lemma sum_pair_change (f g : nat -> R) (l : list nat) (i j : nat) :
  NoDup l -> i ∈ l -> j ∈ l -> i <> j ->
  (forall k, k <> i -> k <> j -> f k = g k) ->
  foldr Rplus 0 (g <$> l)
  = foldr Rplus 0 (f <$> l) + ((g i + g j) - (f i + f j)).
Proof.
  intros Hnd Hi Hj Hij H.
  set (h := fun k => if decide (k = i) then g i else f k).
  rewrite (sum_change h g l j), (sum_change f h l i); try done.
  - unfold h. rewrite decide_True by done.
    rewrite decide_False by (by intros ->). lra.
  - intros k _ Hk. unfold h. by rewrite decide_False.
  - intros k _ Hk. unfold h. destruct (decide (k = i)) as [-> |]; [done |]. by apply H.
Qed.

Lemma momentum_step (V V' : list R) (N c i j : nat) (q : R) :
  (i < N)%nat -> (j < N)%nat -> i <> j -> (c < DIMENSION)%nat ->
  Exact.get V' (i * DIMENSION + c) = Exact.get V (i * DIMENSION + c) - q ->
  Exact.get V' (j * DIMENSION + c) = Exact.get V (j * DIMENSION + c) + q ->
  (forall k c, k <> i -> k <> j -> (c < DIMENSION)%nat ->
     Exact.get V' (k * DIMENSION + c) = Exact.get V (k * DIMENSION + c)) ->
  momentum V' N c = momentum V N c.
Proof.
  intros Hi Hj Hij Hc H1 H2 Ho. unfold momentum.
  rewrite (sum_pair_change (fun k => Exact.get V (k * DIMENSION + c))
             (fun k => Exact.get V' (k * DIMENSION + c)) (seq 0 N) i j);
    [| apply NoDup_seq | apply elem_of_seq; lia | apply elem_of_seq; lia | done |].
  - rewrite H1, H2. lra.
  - intros k Hki Hkj. symmetry. by apply Ho.
Qed.

Lemma energy_step (V V' : list R) (N i j : nat) :
  (i < N)%nat -> (j < N)%nat -> i <> j ->
  (forall k c, k <> i -> k <> j -> (c < DIMENSION)%nat ->
     Exact.get V' (k * DIMENSION + c) = Exact.get V (k * DIMENSION + c)) ->
  energy V' N = energy V N + (pairEnergy V' i j - pairEnergy V i j).
Proof.
  intros Hi Hj Hij Ho. unfold energy.
  rewrite (sum_pair_change
             (fun k => Exact.get V (k * DIMENSION + X) * Exact.get V (k * DIMENSION + X)
                       + Exact.get V (k * DIMENSION + Y) * Exact.get V (k * DIMENSION + Y))
             (fun k => Exact.get V' (k * DIMENSION + X) * Exact.get V' (k * DIMENSION + X)
                       + Exact.get V' (k * DIMENSION + Y) * Exact.get V' (k * DIMENSION + Y))
             (seq 0 N) i j);
    [| apply NoDup_seq | apply elem_of_seq; lia | apply elem_of_seq; lia | done |].
  - unfold pairEnergy. lra.
  - intros k Hki Hkj. rewrite !Ho by (done || idx). done.
Qed.

(** The energy of the pair after one test, for a unit normal. *)
Lemma pairEnergy_step (V V' : list R) (i j : nat) (e nx ny : R) :
  nx * nx + ny * ny = 1 ->
  let r := Exact.along V i j nx ny in
  Exact.get V' (i * DIMENSION + X) = Exact.get V (i * DIMENSION + X) - r * nx * (1 - e) ->
  Exact.get V' (i * DIMENSION + Y) = Exact.get V (i * DIMENSION + Y) - r * ny * (1 - e) ->
  Exact.get V' (j * DIMENSION + X) = Exact.get V (j * DIMENSION + X) + r * nx * (1 - e) ->
  Exact.get V' (j * DIMENSION + Y) = Exact.get V (j * DIMENSION + Y) + r * ny * (1 - e) ->
  pairEnergy V' i j = pairEnergy V i j - 2 * e * (1 - e) * (r * r).
Proof.
  intros Hn r H1 H2 H3 H4.
  assert (E : pairEnergy V' i j
              = pairEnergy V i j - 2 * (1 - e) * (r * r)
                + 2 * (1 - e) * (1 - e) * (r * r) * (nx * nx + ny * ny)).
  { unfold pairEnergy. rewrite H1, H2, H3, H4. subst r. unfold Exact.along. ring. }
  rewrite E, Hn. ring.
Qed.

End ExactPass.

Section ExactPassFacts.

#[local] Existing Instance exact.

Local Open Scope R_scope.

Local Ltac idx := unfold DIMENSION, X, Y in *; lia.

Lemma wellFormed_length_V N P V Ac Rd :
  wellFormed N (exactWorld P V Ac Rd) -> length V = (N * DIMENSION)%nat.
Proof.
  intros (_ & Hv & _). simpl in Hv. unfold Exact.fin in Hv.
  by rewrite length_fmap in Hv.
Qed.

Lemma get_ext (V1 V2 : list R) (N : nat) :
  length V1 = (N * DIMENSION)%nat -> length V2 = (N * DIMENSION)%nat ->
  (forall k c, (k < N)%nat -> (c < DIMENSION)%nat ->
     Exact.get V1 (k * DIMENSION + c) = Exact.get V2 (k * DIMENSION + c)) ->
  V1 = V2.
Proof.
  intros H1 H2 H. apply list_eq. intros m.
  destruct (decide (m < N * DIMENSION)%nat) as [Hm | Hm].
  - destruct (lookup_lt_is_Some_2 V1 m) as [x Hx]; [lia |].
    destruct (lookup_lt_is_Some_2 V2 m) as [y Hy]; [lia |].
    pose proof (Nat.div_mod_eq m 2) as Hdm.
    pose proof (Nat.mod_upper_bound m 2 ltac:(lia)) as Hmod.
    specialize (H (m / 2)%nat (m mod 2)%nat).
    replace (m / 2 * DIMENSION + m mod 2)%nat with m in H by idx.
    unfold Exact.get in H. rewrite Hx, Hy in H.
    rewrite Hx, Hy. f_equal. apply H; idx.
  - rewrite !lookup_ge_None_2 by lia. done.
Qed.

Lemma d2_sym (P : list R) i j : Exact.d2 P j i = Exact.d2 P i j.
Proof. unfold Exact.d2, Exact.dx, Exact.dy. ring. Qed.

Lemma rsum_sym (Rd : list R) i j : Exact.rsum Rd j i = Exact.rsum Rd i j.
Proof. unfold Exact.rsum. ring. Qed.

Lemma overlap_sym P V Ac Rd i j :
  overlap (exactWorld P V Ac Rd) j i = overlap (exactWorld P V Ac Rd) i j.
Proof.
  apply eq_true_iff_eq. rewrite !overlap_exact. by rewrite d2_sym, rsum_sym.
Qed.

(** The whole sequence of pair tests, as a change of the velocity
    buffer. *)
Lemma tests_exact_pass P Ac Rd (e : R) (N : nat) (l : list (nat * nat)) :
  forall V log,
    length V = (N * DIMENSION)%nat ->
    (forall p, p ∈ l -> (p.1 < N)%nat /\ (p.2 < N)%nat /\ p.1 <> p.2) ->
    exists V' log',
      tests (Some e) l (mkSim (exactWorld P V Ac Rd) log)
      = mkSim (exactWorld P V' Ac Rd) log'
      /\ length V' = length V
      /\ momentum V' N X = momentum V N X
      /\ momentum V' N Y = momentum V N Y
      /\ (0 <= e <= 1 -> (forall p, p ∈ l -> Exact.d2 P p.1 p.2 <> 0) ->
          energy V' N <= energy V N).
Proof.
  induction l as [| p l IH]; intros V log HV Hl.
  - exists V, log. repeat split; lra.
  - change (@tests exact (Some e) (p :: l) (mkSim (exactWorld P V Ac Rd) log))
      with (@tests exact (Some e) l
              (@collide exact (Some e) p.1 p.2 (mkSim (exactWorld P V Ac Rd) log))).
    destruct (Hl p) as (Hi & Hj & Hij); [left |].
    destruct (collide_exact_step P V Ac Rd log e p.1 p.2 Hij)
      as (V1 & qx & qy & log1 & Hc & Hlen & H1 & H2 & H3 & H4 & Ho & Hq); [idx | idx |].
    rewrite Hc.
    destruct (IH V1 log1) as (V' & log' & Ht & Hlen' & HmX & HmY & HE);
      [congruence | intros q Hq'; apply Hl; by right |].
    exists V', log'. split; [done |]. split; [congruence |].
    split; [rewrite HmX; by apply (momentum_step V V1 N X p.1 p.2 qx); try idx |].
    split; [rewrite HmY; by apply (momentum_step V V1 N Y p.1 p.2 qy); try idx |].
    intros He Hd. etrans; [apply HE; [done | intros q Hq'; apply Hd; by right] |].
    rewrite (energy_step V V1 N p.1 p.2) by done.
    assert (Hd' : Exact.d2 P p.1 p.2 <> 0) by (apply Hd; left).
    destruct (overlap (exactWorld P V Ac Rd) p.1 p.2).
    + destruct (Hq _ _ (normal_exact_apart P V Ac Rd p.1 p.2 Hd')) as [-> ->].
      rewrite (pairEnergy_step V V1 p.1 p.2 e _ _ (normal_unit P p.1 p.2 Hd') H1 H2 H3 H4).
      assert (0 <= e * (1 - e)) by nra.
      match goal with |- context [?r * ?r] => assert (0 <= r * r) by nra end.
      nra.
    + destruct Hq as [-> ->]. unfold pairEnergy. rewrite H1, H2, H3, H4. lra.
Qed.

Lemma scanPairs_valid {B : Arith} (N : nat) (w : @World B) grid (keys : list CellKey) :
  @buildGrid B N w = Some grid -> keys ≡ₚ cellKeys grid ->
  forall p, p ∈ scanPairs grid keys -> (p.1 < N)%nat /\ (p.2 < N)%nat /\ p.1 <> p.2.
Proof.
  intros Hg Hp [i j] Hin.
  apply (elem_of_scanPairs N w grid keys i j Hg Hp) in Hin as [Hij _]. simpl. lia.
Qed.





(** The outcome of a pair test does not depend on which of the two
    particles is named first: [i < j] only selects the cell that resolves
    the pair. *)
Theorem collide_order_irrelevant (N : nat) (P V Ac Rd : list R)
    (log : list (nat * nat)) (e : R) (i j : nat) :
  let w := exactWorld P V Ac Rd in
  wellFormed N w ->
  (i < N)%nat -> (j < N)%nat -> i <> j ->
  world (collide (Some e) i j (mkSim w log)) = world (collide (Some e) j i (mkSim w log)).
Proof.
  intros w Hwf Hi Hj Hij. pose proof (wellFormed_length_V _ _ _ _ _ Hwf) as HV.
  destruct (collide_exact_step P V Ac Rd log e i j Hij)
    as (V1 & qx & qy & log1 & Hc & Hlen & H1 & H2 & H3 & H4 & Ho & Hq); [idx | idx |].
  destruct (collide_exact_step P V Ac Rd log e j i (not_eq_sym Hij))
    as (V2 & qx' & qy' & log2 & Hc' & Hlen' & H1' & H2' & H3' & H4' & Ho' & Hq'); [idx | idx |].
  subst w. rewrite Hc, Hc'. cbn [world]. f_equal.
  assert (Hqq : qx' = - qx /\ qy' = - qy).
  { rewrite overlap_sym in Hq'. destruct (overlap (exactWorld P V Ac Rd) i j).
    - destruct (Req_dec (Exact.d2 P i j) 0) as [Hd | Hd].
      + destruct (Hq _ _ (normal_exact_same P V Ac Rd i j Hd)) as [-> ->].
        assert (Hd' : Exact.d2 P j i = 0) by (by rewrite d2_sym).
        destruct (Hq' _ _ (normal_exact_same P V Ac Rd j i Hd')) as [-> ->].
        rewrite rsum_sym. unfold Exact.along. split; ring.
      + destruct (Hq _ _ (normal_exact_apart P V Ac Rd i j Hd)) as [-> ->].
        assert (Hd' : Exact.d2 P j i <> 0) by (by rewrite d2_sym).
        destruct (Hq' _ _ (normal_exact_apart P V Ac Rd j i Hd')) as [-> ->].
        rewrite d2_sym.
        assert (Hx : Exact.dx P j i = - Exact.dx P i j) by (unfold Exact.dx; ring).
        assert (Hy : Exact.dy P j i = - Exact.dy P i j) by (unfold Exact.dy; ring).
        rewrite Hx, Hy. unfold Exact.along, Rdiv. split; ring.
    - destruct Hq as [-> ->], Hq' as [-> ->]. split; lra. }
  destruct Hqq as [-> ->].
  apply (get_ext V1 V2 N); [congruence | congruence |].
  intros k c Hk Hc0.
  assert (Hcc : c = X \/ c = Y) by idx.
  destruct (decide (k = i)) as [-> | Hki]; [| destruct (decide (k = j)) as [-> | Hkj]].
  - destruct Hcc as [-> | ->]; [rewrite H1, H3' | rewrite H2, H4']; lra.
  - destruct Hcc as [-> | ->]; [rewrite H3, H1' | rewrite H4, H2']; lra.
  - by rewrite Ho, Ho'.
Qed.

End ExactPassFacts.





Lemma collide_order_irrelevant_witness :
  let w := exactWorld [0; 0; 1.5; 0]%R [1; 0; -1; 0]%R [0; 1000; 0; 1000]%R [1; 1]%R in
  (wellFormed 2 w /\ (0 < 2)%nat /\ (1 < 2)%nat /\ (0 <> 1)%nat)
  /\ world (@collide exact (Some (1 / 100)%R) 0 1 (mkSim w []))
     = world (@collide exact (Some (1 / 100)%R) 1 0 (mkSim w [])).
Proof.
  intros w.
  assert (Hwf : wellFormed 2 w) by (split; [| split; [| split]]; reflexivity).
  assert (H01 : (0 <> 1)%nat) by lia.
  assert (H0 : (0 < 2)%nat) by lia.
  assert (H1 : (1 < 2)%nat) by lia.
  split; [exact (conj Hwf (conj H0 (conj H1 H01))) |].
  exact (collide_order_irrelevant 2 [0; 0; 1.5; 0]%R [1; 0; -1; 0]%R [0; 1000; 0; 1000]%R
           [1; 1]%R [] (1 / 100)%R 0 1 Hwf H0 H1 H01).
Defined.

(** ** More on the integrator, main.cpp:104-109 *)

Section IntegratorFacts.

#[local] Existing Instance exact.

Local Open Scope R_scope.

Lemma daxpy_zero (n : nat) (x y : list R) :
  cblas_daxpy n (Some 0) (Exact.fin x) (Exact.fin y) = Exact.fin y.
Proof.
  apply list_eq. intros k. unfold cblas_daxpy, Exact.fin.
  rewrite list_lookup_imap, !list_lookup_fmap.
  destruct (y !! k) as [yk |]; [| done]. simpl.
  destruct (k <? n)%nat; [| done].
  destruct (x !! k) as [xk |]; [| done]. simpl. do 2 f_equal. lra.
Qed.

(** A frame of duration zero moves nothing: in exact arithmetic the
    integrator with [dt = 0] returns the store it was given. *)
Theorem integrate_zero_dt (P V Ac Rd : list R) :
  integrate (Some 0) (exactWorld P V Ac Rd) = exactWorld P V Ac Rd.
Proof.
  unfold integrate, exactWorld. cbn [positions velocities accelerations radius].
  change (@to_double exact (Some 0)) with (Some 0). by rewrite !daxpy_zero.
Qed.

Lemma fin_lookup (l : list R) k x : l !! k = Some x -> Exact.fin l !! k = Some (Some x).
Proof. intros H. unfold Exact.fin. by rewrite list_lookup_fmap, H. Qed.

Lemma integrate_at {B : Arith} (dt : @num B) (w : @World B) (k : nat) (p v a : @num B) :
  positions w !! k = Some p ->
  velocities w !! k = Some v ->
  accelerations w !! k = Some a ->
  positions (integrate dt w) !! k = Some (dadd (dmul (to_double dt) v) p)
  /\ velocities (integrate dt w) !! k = Some (dadd (dmul (to_double dt) a) v)
  /\ accelerations (integrate dt w) !! k = Some a.
Proof.
  intros Hp Hv Ha. pose proof (lookup_lt_Some _ _ _ Hp) as Hk.
  unfold integrate. cbn [positions velocities accelerations].
  split; [by apply cblas_daxpy_lookup |]. split; [by apply cblas_daxpy_lookup | done].
Qed.


End IntegratorFacts.


(** ** The start of [main], main.cpp:71-95 *)

Section StartupFacts.

Context {A : Arith}.

Local Ltac idx := unfold DIMENSION, X, Y in *; lia.

Lemma initParticles_S rand n (w : World) :
  initParticles rand (S n) w = initParticle rand (initParticles rand n w) n.
Proof. unfold initParticles. by rewrite seq_S, foldl_app. Qed.

Lemma initParticle_wellFormed rand N (st : World * nat) i :
  wellFormed N st.1 -> wellFormed N (initParticle rand st i).1.
Proof.
  destruct st as [w c]. intros (H1 & H2 & H3 & H4).
  unfold initParticle, wellFormed. simpl. by rewrite !length_insert.
Qed.

Lemma initParticle_calls rand (st : World * nat) i :
  (initParticle rand st i).2 = (st.2 + 4)%nat.
Proof. by destruct st. Qed.

(** The row the turn [i] of the loop writes. *)
Lemma initParticle_row rand N (w : World) calls i :
  wellFormed N w -> (i < N)%nat ->
  let w' := (initParticle rand (w, calls) i).1 in
  pos w' i X = to_double (of_int (Z.rem (rand calls) WINDOW_X))
  /\ pos w' i Y = to_double (of_int (Z.rem (rand (calls + 1)%nat) WINDOW_Y))
  /\ vel w' i X = to_double (of_int (Z.rem (rand (calls + 2)%nat) 2 - 1))
  /\ vel w' i Y = to_double (of_int (Z.rem (rand (calls + 3)%nat) 2 - 1))
  /\ rd (accelerations w') (i * DIMENSION + X) = to_double (flit 0)
  /\ rd (accelerations w') (i * DIMENSION + Y) = to_double (flit GRAVITY)
  /\ rad w' i = flit RADIUS.
Proof.
  intros (H1 & H2 & H3 & H4) Hi w'. subst w'.
  unfold initParticle, pos, vel, rad. simpl.
  repeat split;
    rewrite ?rd_insert_ne by idx; apply rd_insert_eq; rewrite ?length_insert; idx.
Qed.

(** The rows it leaves alone. *)
Lemma initParticle_other rand (w : World) calls i k c :
  k <> i -> (c < DIMENSION)%nat ->
  let w' := (initParticle rand (w, calls) i).1 in
  pos w' k c = pos w k c
  /\ vel w' k c = vel w k c
  /\ rd (accelerations w') (k * DIMENSION + c) = rd (accelerations w) (k * DIMENSION + c)
  /\ rad w' k = rad w k.
Proof.
  intros Hk Hc w'. subst w'. unfold initParticle, pos, vel, rad. simpl.
  repeat split; rewrite !rd_insert_ne by idx; done.
Qed.

(** The loop invariant: after [n] turns, [4 n] calls of [rand] are made
    and the rows below [n] hold what their turn wrote. *)
Lemma initParticles_rows rand N (w0 : World) n :
  wellFormed N w0 -> (n <= N)%nat ->
  let st := initParticles rand n w0 in
  st.2 = (4 * n)%nat
  /\ wellFormed N st.1
  /\ forall i, (i < n)%nat ->
       pos st.1 i X = to_double (of_int (Z.rem (rand (4 * i)%nat) WINDOW_X))
       /\ pos st.1 i Y = to_double (of_int (Z.rem (rand (4 * i + 1)%nat) WINDOW_Y))
       /\ vel st.1 i X = to_double (of_int (Z.rem (rand (4 * i + 2)%nat) 2 - 1))
       /\ vel st.1 i Y = to_double (of_int (Z.rem (rand (4 * i + 3)%nat) 2 - 1))
       /\ rd (accelerations st.1) (i * DIMENSION + X) = to_double (flit 0)
       /\ rd (accelerations st.1) (i * DIMENSION + Y) = to_double (flit GRAVITY)
       /\ rad st.1 i = flit RADIUS.
Proof.
  intros Hwf. induction n as [| n IH]; intros Hn.
  - split; [done |]. split; [done |]. intros i Hi. lia.
  - destruct IH as (Hc & Hw & Hrows); [lia |]. cbn zeta.
    rewrite initParticles_S. destruct (initParticles rand n w0) as [w c] eqn:Hst.
    cbn [fst snd] in Hc, Hw, Hrows. subst c.
    split; [rewrite initParticle_calls; simpl; lia |].
    split; [by apply initParticle_wellFormed |].
    intros i Hi. destruct (decide (i = n)) as [-> | Hne].
    + apply (initParticle_row rand N w (4 * n) n Hw). lia.
    + destruct (Hrows i) as (R1 & R2 & R3 & R4 & R5 & R6 & R7); [lia |].
      destruct (initParticle_other rand w (4 * n) n i X Hne) as (O1 & O2 & O3 & O4); [idx |].
      destruct (initParticle_other rand w (4 * n) n i Y Hne) as (O1' & O2' & O3' & _); [idx |].
      rewrite O1, O2, O3, O4, O1', O2', O3'. done.
Qed.

(** If the key of every particle lies in the 120 x 80 cells of the
    window, the rebuild succeeds and at most 9600 cells are occupied. *)
Lemma keys_in_window (N : nat) (w : World) :
  (forall i, (i < N)%nat ->
     exists k, keyOf w i = Some k /\ (0 <= k.1 < 120)%Z /\ (0 <= k.2 < 80)%Z) ->
  exists grid, buildGrid N w = Some grid
    /\ (length (cellKeys grid) <= 120 * 80)%nat
    /\ forall k, k ∈ cellKeys grid -> (0 <= k.1 < 120)%Z /\ (0 <= k.2 < 80)%Z.
Proof.
  intros H.
  destruct (buildGrid_is_Some N w) as [grid Hg].
  { intros i Hi. destruct (H i Hi) as (k & Hk & _). by exists k. }
  exists grid. split; [done |].
  assert (Hin : forall k, k ∈ cellKeys grid -> (0 <= k.1 < 120)%Z /\ (0 <= k.2 < 80)%Z).
  { intros k Hk. apply elem_of_cellKeys in Hk.
    rewrite (buildGrid_lookup N w grid k Hg) in Hk.
    destruct (bucket w N k) as [| i l] eqn:Hb; [by apply is_Some_None in Hk |].
    assert (Hi : i ∈ bucket w N k) by (rewrite Hb; left).
    apply elem_of_bucket in Hi as [Hki Hi].
    destruct (H i Hi) as (k' & Hk' & Hr). rewrite Hki in Hk'. by injection Hk' as <-. }
  split; [| done].
  set (cells := (x ← seqZ 0 120; y ← seqZ 0 80; [(x, y)]) : list CellKey).
  change (120 * 80)%nat with (length cells).
  apply submseteq_length, NoDup_submseteq; [apply NoDup_fst_map_to_list |].
  intros [x y] Hk. destruct (Hin _ Hk) as [Hx Hy]. simpl in Hx, Hy.
  apply list_elem_of_bind. exists x. split; [| apply elem_of_seqZ; lia].
  apply list_elem_of_bind. exists y. split; [left | apply elem_of_seqZ; lia].
Qed.

(** The cells of the initial store, given that converting one of the
    window's integers to [float], storing it as [double] and reading it
    back through [static_cast<float>] and [static_cast<int>] returns it. *)
Lemma initial_cells (rand : nat -> Z) (N : nat) (w0 : World) :
  (forall z, (0 <= z < 1200)%Z -> to_int (to_float (to_double (of_int z))) = Some z) ->
  wellFormed N w0 ->
  (forall k, (0 <= rand k)%Z) ->
  let w := (initParticles rand N w0).1 in
  (forall i, (i < N)%nat ->
     keyOf w i = Some (Z.quot (Z.rem (rand (4 * i)%nat) WINDOW_X) CELL_SIZE,
                       Z.quot (Z.rem (rand (4 * i + 1)%nat) WINDOW_Y) CELL_SIZE))
  /\ exists grid, buildGrid N w = Some grid
       /\ (length (cellKeys grid) <= 120 * 80)%nat
       /\ forall k, k ∈ cellKeys grid -> (0 <= k.1 < 120)%Z /\ (0 <= k.2 < 80)%Z.
Proof.
  intros Hconv Hwf Hrand w.
  destruct (initParticles_rows rand N w0 N Hwf) as (_ & _ & Hrows); [lia |]. fold w in Hrows.
  assert (Hx : forall k, (0 <= Z.rem (rand k) WINDOW_X < 1200)%Z).
  { intros k. apply Z.rem_bound_pos; [done | unfold WINDOW_X; lia]. }
  assert (Hy : forall k, (0 <= Z.rem (rand k) WINDOW_Y < 800)%Z).
  { intros k. apply Z.rem_bound_pos; [done | unfold WINDOW_Y; lia]. }
  assert (Hkey : forall i, (i < N)%nat ->
     keyOf w i = Some (Z.quot (Z.rem (rand (4 * i)%nat) WINDOW_X) CELL_SIZE,
                       Z.quot (Z.rem (rand (4 * i + 1)%nat) WINDOW_Y) CELL_SIZE)).
  { intros i Hi. destruct (Hrows i Hi) as (R1 & R2 & _).
    unfold keyOf, computeCellKey. rewrite R1, R2, !Hconv; [done | |].
    - apply Hx.
    - specialize (Hy (4 * i + 1)%nat). lia. }
  split; [done |]. apply keys_in_window. intros i Hi. eexists. split; [by apply Hkey |].
  cbn [fst snd]. pose proof (Hx (4 * i)%nat) as Hx'. pose proof (Hy (4 * i + 1)%nat) as Hy'.
  revert Hx' Hy'. generalize (Z.rem (rand (4 * i)%nat) WINDOW_X).
  generalize (Z.rem (rand (4 * i + 1)%nat) WINDOW_Y). clear. intros b a Ha Hb.
  unfold CELL_SIZE. split; Z.to_euclidean_division_equations; lia.
Qed.

End StartupFacts.

(** *** The initial store in the two readings *)

Lemma exact_small_ints (z : Z) :
  (0 <= z < 1200)%Z ->
  @to_int exact (@to_float exact (@to_double exact (@of_int exact z))) = Some z.
Proof.
  intros H. simpl. unfold Exact.trunc.
  rewrite Rtrunc_nonneg by (apply (IZR_le 0); lia).
  rewrite ZfloorZ, in_int_range_true; [done | unfold INT_MIN, INT_MAX; lia].
Qed.

Lemma ieee_small_ints_check :
  forallb (fun z =>
             match IEEE.trunc (IEEE.round_to IEEE.prec32 IEEE.emax32
                                 (IEEE.round_to IEEE.prec64 IEEE.emax64 (IEEE.of_Z32 z))) with
             | Some z' => (z' =? z)%Z
             | None => false
             end) (seqZ 0 1200) = true.
Proof. vm_compute. reflexivity. Qed.

Lemma ieee_small_ints (z : Z) :
  (0 <= z < 1200)%Z ->
  @to_int ieee (@to_float ieee (@to_double ieee (@of_int ieee z))) = Some z.
Proof.
  intros H. pose proof ieee_small_ints_check as Hc.
  rewrite forallb_forall in Hc. specialize (Hc z).
  simpl. destruct (IEEE.trunc _) as [z' |].
  - f_equal. apply Z.eqb_eq, Hc, list_elem_of_In, elem_of_seqZ. lia.
  - discriminate Hc. apply list_elem_of_In, elem_of_seqZ. lia.
Qed.



Section InitialStore.

#[local] Existing Instance exact.

Local Open Scope R_scope.

Local Ltac idx := unfold DIMENSION, X, Y in *; lia.

Lemma fin_of_finite (l : list (option R)) :
  (forall m, (m < length l)%nat -> exists r, rd l m = Some r) ->
  exists l', l = Exact.fin l'.
Proof.
  intros H. exists (default 0 <$> l). unfold Exact.fin. rewrite <- list_fmap_compose.
  apply list_eq. intros m. rewrite list_lookup_fmap.
  destruct (l !! m) as [x |] eqn:Hm; [| done]. simpl.
  destruct (H m) as [r Hr]; [by eapply lookup_lt_Some |].
  unfold rd in Hr. cbv [num exact] in Hr. rewrite Hm in Hr. simpl in Hr. by rewrite Hr.
Qed.

Lemma rows_finite (l : list (option R)) (N : nat) :
  length l = (N * DIMENSION)%nat ->
  (forall i c, (i < N)%nat -> (c < DIMENSION)%nat ->
     exists r, rd l (i * DIMENSION + c) = Some r) ->
  exists l', l = Exact.fin l'.
Proof.
  intros Hl H. apply fin_of_finite. intros m Hm.
  pose proof (Nat.div_mod_eq m 2) as Hdm.
  pose proof (Nat.mod_upper_bound m 2 ltac:(lia)) as Hmod.
  replace m with (m / 2 * DIMENSION + m mod 2)%nat by idx. apply H; idx.
Qed.

(** The store after the initialisation loop, in exact arithmetic and
    whatever the buffers held before: every entry is a finite number; the
    position of each particle is the integer point
    [(rand() % 1200, rand() % 800)] of the window; each velocity component
    is [-1] or [0], never positive; the acceleration is [(0, 1000)] and the
    radius [0.5]; the loop makes four calls of [rand] per particle. *)
Theorem initial_store_exact (rand : nat -> Z) (N : nat) (w0 : @World exact) :
  wellFormed N w0 ->
  (forall k, (0 <= rand k)%Z) ->
  exists P V Ac Rd,
    initParticles rand N w0 = (exactWorld P V Ac Rd, (4 * N)%nat)
    /\ wellFormed N (exactWorld P V Ac Rd)
    /\ forall i, (i < N)%nat ->
         Exact.get P (i * DIMENSION + X) = IZR (Z.rem (rand (4 * i)%nat) WINDOW_X)
         /\ Exact.get P (i * DIMENSION + Y) = IZR (Z.rem (rand (4 * i + 1)%nat) WINDOW_Y)
         /\ 0 <= Exact.get P (i * DIMENSION + X) <= 1199
         /\ 0 <= Exact.get P (i * DIMENSION + Y) <= 799
         /\ (Exact.get V (i * DIMENSION + X) = -1 \/ Exact.get V (i * DIMENSION + X) = 0)
         /\ (Exact.get V (i * DIMENSION + Y) = -1 \/ Exact.get V (i * DIMENSION + Y) = 0)
         /\ Exact.get Ac (i * DIMENSION + X) = 0
         /\ Exact.get Ac (i * DIMENSION + Y) = 1000
         /\ Exact.get Rd i = 1 / 2.
Proof.
  intros Hwf Hrand.
  destruct (@initParticles_rows exact rand N w0 N Hwf) as (Hc & Hw & Hrows); [lia |].
  destruct (initParticles rand N w0) as [[Pw Vw Aw Rw] c]. cbn [fst snd] in Hc, Hw, Hrows.
  subst c. pose proof Hw as (HP & HV & HA & HR). cbn in HP, HV, HA, HR.
  destruct (rows_finite Pw N HP) as [P ->].
  { intros i [| [| c]] Hi Hc; [| | idx]; destruct (Hrows i Hi) as (R1 & R2 & _);
      eexists; [exact R1 | exact R2]. }
  destruct (rows_finite Vw N HV) as [V ->].
  { intros i [| [| c]] Hi Hc; [| | idx]; destruct (Hrows i Hi) as (_ & _ & R3 & R4 & _);
      eexists; [exact R3 | exact R4]. }
  destruct (rows_finite Aw N HA) as [Ac ->].
  { intros i [| [| c]] Hi Hc; [| | idx];
      destruct (Hrows i Hi) as (_ & _ & _ & _ & R5 & R6 & _);
      eexists; [exact R5 | exact R6]. }
  destruct (fin_of_finite Rw) as [Rd ->].
  { intros m Hm. destruct (Hrows m) as (_ & _ & _ & _ & _ & _ & R7); [lia |].
    eexists. exact R7. }
  exists P, V, Ac, Rd. split; [done |]. split; [done |].
  intros i Hi. destruct (Hrows i Hi) as (R1 & R2 & R3 & R4 & R5 & R6 & R7).
  unfold pos, vel, rad in *. cbn [positions velocities accelerations radius] in *.
  rewrite rd_fin in R1, R2, R3, R4, R5, R6, R7.
  apply (inj Some) in R1, R2, R3, R4, R5, R6, R7.
  pose proof (Z.rem_bound_pos (rand (4 * i)%nat) WINDOW_X (Hrand _) ltac:(done)) as Bx.
  pose proof (Z.rem_bound_pos (rand (4 * i + 1)%nat) WINDOW_Y (Hrand _) ltac:(done)) as By.
  pose proof (Z.rem_bound_pos (rand (4 * i + 2)%nat) 2 (Hrand _) ltac:(done)) as Bvx.
  pose proof (Z.rem_bound_pos (rand (4 * i + 3)%nat) 2 (Hrand _) ltac:(done)) as Bvy.
  split; [exact R1 |]. split; [exact R2 |].
  split; [rewrite R1; split; [apply (IZR_le 0) | apply (IZR_le _ 1199)];
          unfold WINDOW_X in *; lia |].
  split; [rewrite R2; split; [apply (IZR_le 0) | apply (IZR_le _ 799)];
          unfold WINDOW_Y in *; lia |].
  split.
  { rewrite R3. destruct (decide (Z.rem (rand (4 * i + 2)%nat) 2 = 0)%Z) as [-> | Hne].
    - left. rewrite minus_IZR. lra.
    - right. replace (Z.rem (rand (4 * i + 2)%nat) 2) with 1%Z by lia.
      rewrite minus_IZR. lra. }
  split.
  { rewrite R4. destruct (decide (Z.rem (rand (4 * i + 3)%nat) 2 = 0)%Z) as [-> | Hne].
    - left. rewrite minus_IZR. lra.
    - right. replace (Z.rem (rand (4 * i + 3)%nat) 2) with 1%Z by lia.
      rewrite minus_IZR. lra. }
  split; [rewrite R5; unfold Q2R; simpl; lra |].
  split; [rewrite R6; unfold Q2R, GRAVITY; simpl; lra |].
  rewrite R7. unfold Q2R, RADIUS. simpl. lra.
Qed.

End InitialStore.

Lemma initial_store_exact_witness :
  let rand := fun k : nat => (Z.of_nat k * 7919 + 41)%Z in
  let w0 := exactWorld [0; 0; 0; 0]%R [0; 0; 0; 0]%R [0; 0; 0; 0]%R [0; 0]%R in
  (wellFormed 2 w0 /\ forall k, (0 <= rand k)%Z)
  /\ exists P V Ac Rd,
       @initParticles exact rand 2 w0 = (exactWorld P V Ac Rd, (4 * 2)%nat)
       /\ wellFormed 2 (exactWorld P V Ac Rd)
       /\ forall i, (i < 2)%nat ->
            Exact.get P (i * DIMENSION + X) = IZR (Z.rem (rand (4 * i)%nat) WINDOW_X)
            /\ Exact.get P (i * DIMENSION + Y) = IZR (Z.rem (rand (4 * i + 1)%nat) WINDOW_Y)
            /\ (0 <= Exact.get P (i * DIMENSION + X) <= 1199)%R
            /\ (0 <= Exact.get P (i * DIMENSION + Y) <= 799)%R
            /\ (Exact.get V (i * DIMENSION + X) = (-1)%R \/ Exact.get V (i * DIMENSION + X) = 0%R)
            /\ (Exact.get V (i * DIMENSION + Y) = (-1)%R \/ Exact.get V (i * DIMENSION + Y) = 0%R)
            /\ Exact.get Ac (i * DIMENSION + X) = 0%R
            /\ Exact.get Ac (i * DIMENSION + Y) = 1000%R
            /\ Exact.get Rd i = (1 / 2)%R.
Proof.
  intros rand w0.
  assert (Hwf : wellFormed 2 w0) by (split; [| split; [| split]]; reflexivity).
  assert (Hr : forall k, (0 <= rand k)%Z) by (intros k; unfold rand; lia).
  split; [exact (conj Hwf Hr) |].
  exact (initial_store_exact rand 2 w0 Hwf Hr).
Defined.

(** ** Which stretch of the plane a cell covers, main.cpp:39-41 *)

Section CellSpans.

#[local] Existing Instance exact.

Local Open Scope R_scope.

Lemma quot_span (z : Z) :
  let q := Z.quot z CELL_SIZE in
  ((0 < q /\ CELL_SIZE * q <= z /\ z + 1 <= CELL_SIZE * q + CELL_SIZE)
   \/ (q = 0 /\ - CELL_SIZE + 1 <= z /\ z + 1 <= CELL_SIZE)
   \/ (q < 0 /\ CELL_SIZE * q - CELL_SIZE + 1 <= z /\ z <= CELL_SIZE * q))%Z.
Proof. unfold CELL_SIZE. cbn zeta. Z.to_euclidean_division_equations. lia. Qed.

Lemma trunc_span (x : R) : cellSpan (Z.quot (Exact.Rtrunc x) CELL_SIZE) x.
Proof.
  unfold cellSpan.
  pose proof (quot_span (Exact.Rtrunc x)) as Hq. cbn zeta in Hq.
  set (q := Z.quot (Exact.Rtrunc x) CELL_SIZE) in *.
  destruct (Rtrunc_spec x) as [(H0 & Hz & Hlo & Hhi) | (H0 & Hz & Hlo & Hhi)];
    set (z := Exact.Rtrunc x) in *;
    destruct Hq as [(Hs & Ha & Hb) | [(Hs & Ha & Hb) | (Hs & Ha & Hb)]];
    apply IZR_le in Ha, Hb; unfold CELL_SIZE in *;
    rewrite ?plus_IZR, ?minus_IZR, ?opp_IZR in *.
  - left. split; [done |]. lra.
  - right; left. split; [done |]. lra.
  - exfalso. apply le_IZR in Hb. lia.
  - exfalso. apply le_IZR in Ha. lia.
  - right; left. split; [done |]. lra.
  - right; right. split; [done |]. lra.
Qed.

Lemma cellSpan_unique (c c' : Z) (x : R) : cellSpan c x -> cellSpan c' x -> c = c'.
Proof.
  unfold cellSpan, CELL_SIZE.
  rewrite ?plus_IZR, ?minus_IZR, ?mult_IZR.
  intros H H'.
  assert (Hd : -1 < IZR c - IZR c' < 1).
  { destruct H as [(Hs & H) | [(Hs & H) | (Hs & H)]];
      destruct H' as [(Hs' & H') | [(Hs' & H') | (Hs' & H')]];
      repeat match goal with
             | Hp : (0 < ?d)%Z |- _ =>
                 assert (1 <= IZR d) by (apply (IZR_le 1); lia); clear Hp
             | Hn : (?d < 0)%Z |- _ =>
                 assert (IZR d <= -1) by (apply (IZR_le _ (-1)); lia); clear Hn
             end;
      subst; lra. }
  rewrite <- minus_IZR in Hd. destruct Hd as [Hd1 Hd2].
  apply lt_IZR in Hd1, Hd2. lia.
Qed.

Lemma in_int_range_fits (x : R) :
  in_int_range (Exact.Rtrunc x) = true -> Exact.fits_int x.
Proof.
  intros [Hlo Hhi]%in_int_range_inv. unfold Exact.fits_int.
  apply IZR_le in Hlo, Hhi.
  assert (Hmin : IZR INT_MIN <= 0) by (apply (IZR_le _ 0); unfold INT_MIN; lia).
  assert (Hmax : 0 <= IZR INT_MAX) by (apply (IZR_le 0); unfold INT_MAX; lia).
  destruct (Rtrunc_spec x) as [(H0 & Hz & Ha) | (H0 & Hz & Ha)]; lra.
Qed.

(** [computeCellKey] answers exactly for the points whose coordinates
    truncate to an [int], and the component it answers is the one cell
    whose stretch the coordinate lies in.  The stretches are ten units
    wide and closed toward zero, except that of cell [0], which is the
    open interval from [-10] to [10]: truncation toward zero folds the
    cell that the floor would number [-1] into cell [0]. *)
Theorem computeCellKey_cells (a b : option R) (k : CellKey) :
  computeCellKey a b = Some k <->
  exists x y, a = Some x /\ b = Some y
    /\ Exact.fits_int x /\ Exact.fits_int y
    /\ cellSpan k.1 x /\ cellSpan k.2 y.
Proof.
  unfold computeCellKey. simpl. unfold Exact.trunc. split.
  - destruct a as [x |], b as [y |]; try done.
    + destruct (in_int_range (Exact.Rtrunc x)) eqn:Hx; [| done]. simpl.
      destruct (in_int_range (Exact.Rtrunc y)) eqn:Hy; [| done]. simpl.
      intros [= <-]. exists x, y. cbn [fst snd].
      repeat split; try done; by apply in_int_range_fits || apply trunc_span.
    + destruct (in_int_range (Exact.Rtrunc x)); done.
  - intros (x & y & -> & -> & Hx & Hy & Sx & Sy).
    rewrite !fits_int_range by done. simpl. destruct k as [cx cy]. cbn [fst snd] in *.
    f_equal. f_equal; eapply cellSpan_unique; eauto using trunc_span.
Qed.

End CellSpans.

(** ** The shape of the store *)

(** The buffers never change size: the initialisation loop, the
    integrator and the resolver (for any grid, key list and number of
    threads) each turn a store of [N] particles into a store of [N]
    particles. *)
Theorem store_keeps_shape {A : Arith} (N : nat) (w : World) :
  wellFormed N w ->
  (forall rand, wellFormed N (initParticles rand N w).1)
  /\ (forall dt, wellFormed N (integrate dt w))
  /\ (forall (E : num) grid (keys : list CellKey) (T : Z),
        wellFormed N (world (runThreads E grid keys T (mkSim w [])))).
Proof.
  intros Hwf. split; [| split].
  - intros rand. by destruct (initParticles_rows rand N w N Hwf) as (_ & H & _).
  - intros dt. destruct Hwf as (H1 & H2 & H3 & H4).
    unfold wellFormed, integrate. cbn [positions velocities accelerations radius].
    by rewrite !cblas_daxpy_length.
  - intros E grid keys T. rewrite runThreads_ranges.
    match goal with |- wellFormed N (world (tests E ?l ?s)) =>
      pose proof (tests_frame E l s) as Hf; pose proof (tests_length E l s) as Hl
    end.
    unfold frame in Hf. cbn [world] in Hf, Hl. injection Hf as Hp Ha Hr.
    destruct Hwf as (H1 & H2 & H3 & H4). unfold wellFormed.
    by rewrite Hp, Ha, Hr, Hl.
Qed.

Lemma store_keeps_shape_witness :
  let w := ieeeWorld [0; 0; 1.5; 0]%Q [1; 0; -1; 0]%Q [0; 1000; 0; 1000]%Q [1; 1]%Q in
  wellFormed 2 w
  /\ wellFormed 2 (@integrate ieee (IEEE.lit32 0.5) w)
  /\ wellFormed 2 (world (@runThreads ieee (IEEE.lit32 0.01) ∅ [] 4 (mkSim w []))).
Proof.
  intros w.
  assert (Hwf : wellFormed 2 w) by (split; [| split; [| split]]; reflexivity).
  split; [exact Hwf |].
  pose proof (@store_keeps_shape ieee 2 w Hwf) as (_ & H2 & H3).
  exact (conj (H2 (IEEE.lit32 0.5)) (H3 (IEEE.lit32 0.01) ∅ [] 4%Z)).
Defined.
